(** * S-curve trajectory follower (controllers/s_curve_traj_follower.{h,c})

    A shallow embedding of the single-axis and the group trajectory follower.
    C [float] is IEEE-754 binary32, taken from the Standard Library's
    [SpecFloat] at precision 24 and exponent bound 128.  The follower is a
    C struct mutated through a pointer, and the motors live behind handles:
    both are threaded through a small state-and-failure monad.  Reading an
    array cell past the end of the borrowed [items] array is undefined
    behaviour in C and is a failure of the command here.

    The curve library (libs/s_curve.h) and the PD corrector (libs/pid_pd.h)
    are not part of these sources; they enter as two interfaces. *)

From Stdlib Require Import ZArith Bool List Lia SpecFloat.
From stdpp Require Import base list functions.

Local Open Scope Z_scope.

(** ** binary32 *)

Definition prec : Z := 24.
Definition emax : Z := 128.

Abbreviation float := spec_float.

Definition fadd : float -> float -> float := SFadd prec emax.
Definition fmul : float -> float -> float := SFmul prec emax.
Definition fdiv : float -> float -> float := SFdiv prec emax.

(** C's [a == b] and [a >= b] on floats: both are false on a NaN. *)
Definition feqb (a b : float) : bool := SFeqb a b.
Definition fgeb (a b : float) : bool := SFleb b a.

(** Conversion of an integer to [float], round to nearest even. *)
Definition float_of_Z (z : Z) : float := binary_normalize prec emax z 0 false.

Definition fzero : float := S754_zero false.
Definition fnan : float := S754_nan.

(** The literals of the source. *)
Definition f360 : float := float_of_Z 360.
Definition f60 : float := float_of_Z 60.
Definition fminus1 : float := SFopp (float_of_Z 1).

(** [(float) n] for a [size_t] n. *)
Definition float_of_size (n : nat) : float := float_of_Z (Z.of_nat n).

(** [#define DPS2RPM(x) ((x) / 360.0f * 60.0f)] *)
Definition DPS2RPM (deg_per_sec : float) : float :=
  fmul (fdiv deg_per_sec f360) f60.

(** *** Values and order

    The value of mantissa [m] at exponent [e], counted in units of
    2^emin: an integer whenever [e] is not below [emin]. *)
Definition val (m e : Z) : Z := m * 2 ^ (e - emin prec emax).

Definition canonical (m : positive) (e : Z) : Prop :=
  fexp prec emax (Zpos (digits2_pos m) + e) = e.

(** A key whose lexicographic order is the order of the floats: the class
    (negative infinity, negative, zero, positive, positive infinity), then
    exponent and mantissa, negated on the negative side. *)
Definition key (x : float) : Z * Z * Z :=
  match x with
  | S754_infinity true => (-2, 0, 0)
  | S754_finite true m e => (-1, - e, - Zpos m)
  | S754_zero _ => (0, 0, 0)
  | S754_finite false m e => (1, e, Zpos m)
  | S754_infinity false => (2, 0, 0)
  | S754_nan => (3, 0, 0)
  end.

Definition lex_le (k1 k2 : Z * Z * Z) : Prop :=
  let '(a1, b1, c1) := k1 in
  let '(a2, b2, c2) := k2 in
  a1 < a2 \/ (a1 = a2 /\ (b1 < b2 \/ (b1 = b2 /\ c1 <= c2))).

Definition is_nan (x : float) : bool :=
  match x with S754_nan => true | _ => false end.

(** The floats of binary32 are the valid ones. *)
Definition valid (x : float) : bool := valid_binary prec emax x.

(** ** The motor interface *)

(** Modelled from the spec: interfaces/motor_if.h is missing.  The spec gives
    the actuator module four capabilities: read the measured position, read
    the measured velocity, set the velocity command, and zero the position
    accumulator.  A motor is the record of those three quantities; a handle
    ([Motor_VelCtrl_t*]) is an index into the store of motors. *)
Record Motor_VelCtrl_t := {
  angle : float;      (* measured position, degrees *)
  velocity : float;   (* measured velocity, degrees per second *)
  vel_ref : float     (* last velocity command, revolutions per minute *)
}.

Abbreviation handle := nat.

(** The world outside the follower: the motors, and the velocity commands
    issued so far, oldest first. *)
Record World := {
  motor : handle -> Motor_VelCtrl_t;
  sent : list (handle * float)
}.

Definition set_vel_ref (v : float) (m : Motor_VelCtrl_t) : Motor_VelCtrl_t :=
  {| angle := angle m; velocity := velocity m; vel_ref := v |}.

Definition zero_angle (m : Motor_VelCtrl_t) : Motor_VelCtrl_t :=
  {| angle := fzero; velocity := velocity m; vel_ref := vel_ref m |}.

(** ** The curve interface (libs/s_curve.h) *)

Inductive SCurve_Result_t := S_CURVE_SUCCESS | S_CURVE_FAILED.

Definition is_success (r : SCurve_Result_t) : bool :=
  match r with S_CURVE_SUCCESS => true | S_CURVE_FAILED => false end.

(** [SCurve_Init] writes the curve behind its first argument, also when it
    fails, and may depend on what was there; it is given the start position,
    the target, the start velocity, the start acceleration and the three
    limits, in the order of the C prototype. *)
Class SCurveLib := {
  SCurve_t : Type;
  total_time : SCurve_t -> float;
  SCurve_Init :
    SCurve_t -> float -> float -> float -> float -> float -> float -> float ->
    SCurve_Result_t * SCurve_t;
  SCurve_CalcX : SCurve_t -> float -> float;
  SCurve_CalcV : SCurve_t -> float -> float;
  SCurve_CalcA : SCurve_t -> float -> float;
  SCurve_Reset : SCurve_t -> SCurve_t
}.

(** ** The corrector interface (libs/pid_pd.h)

    The follower touches three fields of [PD_t] by name: [ref], [fdb] and
    [output].  Whatever else the struct holds (gains, error history) is
    [rest]. *)

Record PD_t (R : Type) := {
  ref : float;
  fdb : float;
  output : float;
  rest : R
}.
Arguments ref {R} _.
Arguments fdb {R} _.
Arguments output {R} _.
Arguments rest {R} _.

Class PDLib := {
  PD_rest : Type;
  PD_rest_zero : PD_rest;          (* the all-zero bytes of the rest *)
  PD_Config_t : Type;
  PD_Init : PD_t PD_rest -> PD_Config_t -> PD_t PD_rest;
  PD_Calculate : PD_t PD_rest -> PD_t PD_rest
}.

Abbreviation PD := (PD_t PD_rest).

Definition set_ref {R} (v : float) (p : PD_t R) : PD_t R :=
  {| ref := v; fdb := fdb p; output := output p; rest := rest p |}.
Definition set_fdb {R} (v : float) (p : PD_t R) : PD_t R :=
  {| ref := ref p; fdb := v; output := output p; rest := rest p |}.

(** [memset(&pd, 0, sizeof(pd))]: every byte of the struct is zero, so the
    three floats are +0 and the rest is its all-zero value. *)
Definition PD_zero `{PDLib} : PD :=
  {| ref := fzero; fdb := fzero; output := fzero; rest := PD_rest_zero |}.

(** ** Commands: state and failure *)

Record Mach (F : Type) := { fol : F; env : World }.
Arguments fol {F} _.
Arguments env {F} _.

Definition Cmd (F A : Type) : Type := Mach F -> option (A * Mach F).

Definition cret {F A} (a : A) : Cmd F A := fun m => Some (a, m).

Definition cbind {F A B} (c : Cmd F A) (k : A -> Cmd F B) : Cmd F B :=
  fun m => match c m with
           | Some (a, m') => k a m'
           | None => None
           end.

Definition cfail {F A} : Cmd F A := fun _ => None.

Declare Scope cmd_scope.
Delimit Scope cmd_scope with cmd.
Notation "x <- c ;; k" := (cbind c (fun x => k))
  (at level 100, c at next level, k at level 200, right associativity)
  : cmd_scope.
Notation "c ;; k" := (cbind c (fun _ => k))
  (at level 100, k at level 200, right associativity) : cmd_scope.

Definition get_fol {F} : Cmd F F := fun m => Some (fol m, m).

Definition upd_fol {F} (g : F -> F) : Cmd F unit :=
  fun m => Some (tt, {| fol := g (fol m); env := env m |}).

Definition read_env {F A} (g : World -> A) : Cmd F A :=
  fun m => Some (g (env m), m).

Definition upd_env {F} (g : World -> World) : Cmd F unit :=
  fun m => Some (tt, {| fol := fol m; env := g (env m) |}).

(** Modelled from the spec: the four calls of interfaces/motor_if.h, which
    is missing.  The two getters read the measured position and velocity;
    [Motor_VelCtrl_SetRef] stores the velocity command in the motor and is
    logged; [MotorCtrl_ResetAngle] zeroes the position of the motor. *)
Definition MotorCtrl_GetAngle {F} (h : handle) : Cmd F float :=
  read_env (fun w => angle (motor w h)).

Definition MotorCtrl_GetVelocity {F} (h : handle) : Cmd F float :=
  read_env (fun w => velocity (motor w h)).

Definition send (h : handle) (v : float) (w : World) : World :=
  {| motor := alter (set_vel_ref v) h (motor w); sent := sent w ++ [(h, v)] |}.

Definition rehome (h : handle) (w : World) : World :=
  {| motor := alter zero_angle h (motor w); sent := sent w |}.

Definition Motor_VelCtrl_SetRef {F} (h : handle) (v : float) : Cmd F unit :=
  upd_env (send h v).

Definition MotorCtrl_ResetAngle {F} (h : handle) : Cmd F unit :=
  upd_env (rehome h).

(** [for (size_t i = 0; i < n; i++) body], with the locals the body updates
    carried as [a]. *)
Fixpoint for_from {F A} (i k : nat) (body : nat -> A -> Cmd F A) (a : A)
  : Cmd F A :=
  match k with
  | O => cret a
  | S k' => cbind (body i a) (for_from (S i) k' body)
  end.

Definition for_loop {F A} (n : nat) (body : nat -> A -> Cmd F A) (a : A)
  : Cmd F A :=
  for_from 0 n body a.

(** ** The single-axis follower *)

Module Axis.
(** [SCurveTrajFollower_Axis_t], without the DEBUG-only field. *)
Record t `{SCurveLib} `{PDLib} := {
  running : bool;
  update_interval : float;
  s : SCurve_t;
  pd : PD;
  ctrl : handle;
  v_max : float;
  a_max : float;
  j_max : float;
  now : float
}.

Section Setters.
Context `{SCurveLib} `{PDLib}.

Definition set_running (b : bool) (f : t) : t :=
  {| running := b; update_interval := update_interval f; s := s f;
     pd := pd f; ctrl := ctrl f; v_max := v_max f; a_max := a_max f;
     j_max := j_max f; now := now f |}.
Definition set_update_interval (x : float) (f : t) : t :=
  {| running := running f; update_interval := x; s := s f;
     pd := pd f; ctrl := ctrl f; v_max := v_max f; a_max := a_max f;
     j_max := j_max f; now := now f |}.
Definition set_s (c : SCurve_t) (f : t) : t :=
  {| running := running f; update_interval := update_interval f; s := c;
     pd := pd f; ctrl := ctrl f; v_max := v_max f; a_max := a_max f;
     j_max := j_max f; now := now f |}.
Definition set_pd (p : PD) (f : t) : t :=
  {| running := running f; update_interval := update_interval f; s := s f;
     pd := p; ctrl := ctrl f; v_max := v_max f; a_max := a_max f;
     j_max := j_max f; now := now f |}.
Definition set_ctrl (h : handle) (f : t) : t :=
  {| running := running f; update_interval := update_interval f; s := s f;
     pd := pd f; ctrl := h; v_max := v_max f; a_max := a_max f;
     j_max := j_max f; now := now f |}.
Definition set_v_max (x : float) (f : t) : t :=
  {| running := running f; update_interval := update_interval f; s := s f;
     pd := pd f; ctrl := ctrl f; v_max := x; a_max := a_max f;
     j_max := j_max f; now := now f |}.
Definition set_a_max (x : float) (f : t) : t :=
  {| running := running f; update_interval := update_interval f; s := s f;
     pd := pd f; ctrl := ctrl f; v_max := v_max f; a_max := x;
     j_max := j_max f; now := now f |}.
Definition set_j_max (x : float) (f : t) : t :=
  {| running := running f; update_interval := update_interval f; s := s f;
     pd := pd f; ctrl := ctrl f; v_max := v_max f; a_max := a_max f;
     j_max := x; now := now f |}.
Definition set_now (x : float) (f : t) : t :=
  {| running := running f; update_interval := update_interval f; s := s f;
     pd := pd f; ctrl := ctrl f; v_max := v_max f; a_max := a_max f;
     j_max := j_max f; now := x |}.
End Setters.
End Axis.

Abbreviation SCurveTrajFollower_Axis_t := Axis.t.

Module AxisConfig.
(** [SCurveTrajFollower_AxisConfig_t] *)
Record t `{PDLib} := {
  update_interval : float;
  error_pd : PD_Config_t;
  motor_vel_ctrl : handle;
  v_max : float;
  a_max : float;
  j_max : float
}.
End AxisConfig.

Abbreviation SCurveTrajFollower_AxisConfig_t := AxisConfig.t.

Section AxisFollower.
Context `{SCurveLib} `{PDLib}.
Local Open Scope cmd_scope.

Definition SCurveTraj_Axis_Init (config : SCurveTrajFollower_AxisConfig_t)
  : Cmd Axis.t unit :=
  if feqb (AxisConfig.update_interval config) fzero then cret tt
  else
    upd_fol (fun f => Axis.set_pd
                        (PD_Init (Axis.pd f) (AxisConfig.error_pd config)) f) ;;
    upd_fol (Axis.set_ctrl (AxisConfig.motor_vel_ctrl config)) ;;
    upd_fol (Axis.set_update_interval (AxisConfig.update_interval config)) ;;
    upd_fol (Axis.set_v_max (AxisConfig.v_max config)) ;;
    upd_fol (Axis.set_a_max (AxisConfig.a_max config)) ;;
    upd_fol (Axis.set_j_max (AxisConfig.j_max config)) ;;
    upd_fol (Axis.set_now fzero) ;;
    upd_fol (Axis.set_running false).

Definition SCurveTraj_Axis_Update : Cmd Axis.t unit :=
  f <- get_fol ;;
  if negb (Axis.running f) then cret tt
  else
    let now := fadd (Axis.now f) (Axis.update_interval f) in
    upd_fol (Axis.set_now now) ;;
    let ff_velocity := SCurve_CalcV (Axis.s f) now in
    let target := SCurve_CalcX (Axis.s f) now in
    upd_fol (fun f => Axis.set_pd (set_ref target (Axis.pd f)) f) ;;
    a <- MotorCtrl_GetAngle (Axis.ctrl f) ;;
    upd_fol (fun f => Axis.set_pd (set_fdb a (Axis.pd f)) f) ;;
    upd_fol (fun f => Axis.set_pd (PD_Calculate (Axis.pd f)) f) ;;
    f' <- get_fol ;;
    let velocity := fadd ff_velocity (output (Axis.pd f')) in
    Motor_VelCtrl_SetRef (Axis.ctrl f') (DPS2RPM velocity).

Definition SCurveTraj_Axis_ResetAll : Cmd Axis.t unit :=
  upd_fol (Axis.set_running false) ;;
  upd_fol (fun f => Axis.set_s (SCurve_Reset (Axis.s f)) f) ;;
  upd_fol (Axis.set_pd PD_zero) ;;
  f <- get_fol ;;
  Motor_VelCtrl_SetRef (Axis.ctrl f) fzero ;;
  MotorCtrl_ResetAngle (Axis.ctrl f).

Definition SCurveTraj_Axis_Stop : Cmd Axis.t unit :=
  upd_fol (Axis.set_running false) ;;
  f <- get_fol ;;
  Motor_VelCtrl_SetRef (Axis.ctrl f) fzero ;;
  upd_fol (Axis.set_pd PD_zero).

(** [s] is what the pointer [s] points at on entry; the curve written
    there comes back with the result code. *)
Definition axis_s_curve_init (s : SCurve_t) (running : bool) (target : float)
  : Cmd Axis.t (SCurve_Result_t * SCurve_t) :=
  f <- get_fol ;;
  x0 <- MotorCtrl_GetAngle (Axis.ctrl f) ;;
  v0 <- MotorCtrl_GetVelocity (Axis.ctrl f) ;;
  cret (SCurve_Init s
          x0
          target
          v0
          (if running then SCurve_CalcA (Axis.s f) (Axis.now f) else fzero)
          (Axis.v_max f)
          (Axis.a_max f)
          (Axis.j_max f)).

Definition SCurveTraj_Axis_SetTarget (target : float)
  : Cmd Axis.t SCurve_Result_t :=
  f <- get_fol ;;
  let running := Axis.running f in
  upd_fol (Axis.set_running false) ;;
  f1 <- get_fol ;;
  rs <- axis_s_curve_init (Axis.s f1) running target ;;
  upd_fol (Axis.set_s (snd rs)) ;;
  let r := fst rs in
  upd_fol (Axis.set_now fzero) ;;
  (if is_success r then upd_fol (Axis.set_running true)
   else SCurveTraj_Axis_Stop) ;;
  cret r.

(** [temps] is the content of the uninitialised local the curve is
    planned into. *)
Definition SCurveTraj_Axis_EstimateDuration (temps : SCurve_t)
  (target : float) : Cmd Axis.t float :=
  f <- get_fol ;;
  rs <- axis_s_curve_init temps (Axis.running f) target ;;
  if negb (is_success (fst rs)) then cret fminus1
  else cret (total_time (snd rs)).

End AxisFollower.

(** ** The group follower *)

Module GroupItem.
(** [SCurveTrajFollower_GroupItem_t] *)
Record t `{PDLib} := { ctrl : handle; pd : PD }.

Definition set_ctrl `{PDLib} (h : handle) (it : t) : t :=
  {| ctrl := h; pd := pd it |}.
Definition set_pd `{PDLib} (p : PD) (it : t) : t :=
  {| ctrl := ctrl it; pd := p |}.
End GroupItem.

Module GroupItemConfig.
(** [SCurveTrajFollower_GroupItem_Config_t] *)
Record t `{PDLib} := { ctrl : handle; error_pd : PD_Config_t }.
End GroupItemConfig.

Module Group.
(** [SCurveTrajFollower_Group_t], without the DEBUG-only field.  [items]
    is the array the follower borrows; [item_count] is the count the
    loops run to. *)
Record t `{SCurveLib} `{PDLib} := {
  running : bool;
  update_interval : float;
  s : SCurve_t;
  v_max : float;
  a_max : float;
  j_max : float;
  items : list GroupItem.t;
  item_count : nat;
  now : float
}.

Section Setters.
Context `{SCurveLib} `{PDLib}.

Definition set_running (b : bool) (f : t) : t :=
  {| running := b; update_interval := update_interval f; s := s f;
     v_max := v_max f; a_max := a_max f; j_max := j_max f;
     items := items f; item_count := item_count f; now := now f |}.
Definition set_update_interval (x : float) (f : t) : t :=
  {| running := running f; update_interval := x; s := s f;
     v_max := v_max f; a_max := a_max f; j_max := j_max f;
     items := items f; item_count := item_count f; now := now f |}.
Definition set_s (c : SCurve_t) (f : t) : t :=
  {| running := running f; update_interval := update_interval f; s := c;
     v_max := v_max f; a_max := a_max f; j_max := j_max f;
     items := items f; item_count := item_count f; now := now f |}.
Definition set_v_max (x : float) (f : t) : t :=
  {| running := running f; update_interval := update_interval f; s := s f;
     v_max := x; a_max := a_max f; j_max := j_max f;
     items := items f; item_count := item_count f; now := now f |}.
Definition set_a_max (x : float) (f : t) : t :=
  {| running := running f; update_interval := update_interval f; s := s f;
     v_max := v_max f; a_max := x; j_max := j_max f;
     items := items f; item_count := item_count f; now := now f |}.
Definition set_j_max (x : float) (f : t) : t :=
  {| running := running f; update_interval := update_interval f; s := s f;
     v_max := v_max f; a_max := a_max f; j_max := x;
     items := items f; item_count := item_count f; now := now f |}.
Definition set_items (l : list GroupItem.t) (f : t) : t :=
  {| running := running f; update_interval := update_interval f; s := s f;
     v_max := v_max f; a_max := a_max f; j_max := j_max f;
     items := l; item_count := item_count f; now := now f |}.
Definition set_item_count (n : nat) (f : t) : t :=
  {| running := running f; update_interval := update_interval f; s := s f;
     v_max := v_max f; a_max := a_max f; j_max := j_max f;
     items := items f; item_count := n; now := now f |}.
Definition set_now (x : float) (f : t) : t :=
  {| running := running f; update_interval := update_interval f; s := s f;
     v_max := v_max f; a_max := a_max f; j_max := j_max f;
     items := items f; item_count := item_count f; now := x |}.
End Setters.
End Group.

Abbreviation SCurveTrajFollower_Group_t := Group.t.

Module GroupConfig.
(** [SCurveTrajFollower_GroupConfig_t]; [items] is the storage the
    follower is lent, with whatever it holds at the call. *)
Record t `{PDLib} := {
  update_interval : float;
  item_configs : list GroupItemConfig.t;
  items : list GroupItem.t;
  item_count : nat;
  v_max : float;
  a_max : float;
  j_max : float
}.
End GroupConfig.

Abbreviation SCurveTrajFollower_GroupConfig_t := GroupConfig.t.

Section GroupFollower.
Context `{SCurveLib} `{PDLib}.
Local Open Scope cmd_scope.

(** [follower->items[i]] as an rvalue. *)
Definition item_at (i : nat) : Cmd Group.t GroupItem.t :=
  fun m => match Group.items (fol m) !! i with
           | Some it => Some (it, m)
           | None => None
           end.

(** A write into [follower->items[i]]. *)
Definition upd_item (i : nat) (g : GroupItem.t -> GroupItem.t)
  : Cmd Group.t unit :=
  fun m => match Group.items (fol m) !! i with
           | Some it =>
               Some (tt, {| fol := Group.set_items
                                     (<[i := g it]> (Group.items (fol m)))
                                     (fol m);
                            env := env m |})
           | None => None
           end.

(** [config->item_configs[i]] *)
Definition item_config_at (config : SCurveTrajFollower_GroupConfig_t)
  (i : nat) : Cmd Group.t GroupItemConfig.t :=
  match GroupConfig.item_configs config !! i with
  | Some c => cret c
  | None => cfail
  end.

(** One round of the loop of [SCurveTraj_Group_Init]. *)
Definition group_init_item (config : SCurveTrajFollower_GroupConfig_t)
  (i : nat) (_ : unit) : Cmd Group.t unit :=
  c <- item_config_at config i ;;
  upd_item i (GroupItem.set_ctrl (GroupItemConfig.ctrl c)) ;;
  upd_item i (fun it =>
    GroupItem.set_pd
      (PD_Init (GroupItem.pd it) (GroupItemConfig.error_pd c)) it).

Definition SCurveTraj_Group_Init (config : SCurveTrajFollower_GroupConfig_t)
  : Cmd Group.t unit :=
  if feqb (GroupConfig.update_interval config) fzero then cret tt
  else
    upd_fol (Group.set_items (GroupConfig.items config)) ;;
    upd_fol (Group.set_item_count (GroupConfig.item_count config)) ;;
    f <- get_fol ;;
    for_loop (Group.item_count f) (group_init_item config) tt ;;
    upd_fol (Group.set_update_interval (GroupConfig.update_interval config)) ;;
    upd_fol (Group.set_v_max (GroupConfig.v_max config)) ;;
    upd_fol (Group.set_a_max (GroupConfig.a_max config)) ;;
    upd_fol (Group.set_j_max (GroupConfig.j_max config)) ;;
    upd_fol (Group.set_now fzero) ;;
    upd_fol (Group.set_running false).

(** One round of the loop of [SCurveTraj_Group_Update]. *)
Definition group_update_item (ff_velocity target : float) (i : nat)
  (_ : unit) : Cmd Group.t unit :=
  upd_item i (fun it =>
    GroupItem.set_pd (set_ref target (GroupItem.pd it)) it) ;;
  it <- item_at i ;;
  a <- MotorCtrl_GetAngle (GroupItem.ctrl it) ;;
  upd_item i (fun it => GroupItem.set_pd (set_fdb a (GroupItem.pd it)) it) ;;
  upd_item i (fun it =>
    GroupItem.set_pd (PD_Calculate (GroupItem.pd it)) it) ;;
  it' <- item_at i ;;
  let velocity := fadd ff_velocity (output (GroupItem.pd it')) in
  Motor_VelCtrl_SetRef (GroupItem.ctrl it') (DPS2RPM velocity).

Definition SCurveTraj_Group_Update : Cmd Group.t unit :=
  f <- get_fol ;;
  if negb (Group.running f) then cret tt
  else
    let now := fadd (Group.now f) (Group.update_interval f) in
    upd_fol (Group.set_now now) ;;
    let ff_velocity := SCurve_CalcV (Group.s f) now in
    let target := SCurve_CalcX (Group.s f) now in
    for_loop (Group.item_count f) (group_update_item ff_velocity target) tt.

Definition group_reset_item (i : nat) (_ : unit) : Cmd Group.t unit :=
  upd_item i (GroupItem.set_pd PD_zero) ;;
  it <- item_at i ;;
  Motor_VelCtrl_SetRef (GroupItem.ctrl it) fzero ;;
  MotorCtrl_ResetAngle (GroupItem.ctrl it).

Definition SCurveTraj_Group_ResetAll : Cmd Group.t unit :=
  upd_fol (Group.set_running false) ;;
  upd_fol (fun f => Group.set_s (SCurve_Reset (Group.s f)) f) ;;
  f <- get_fol ;;
  for_loop (Group.item_count f) group_reset_item tt.

Definition group_stop_item (i : nat) (_ : unit) : Cmd Group.t unit :=
  it <- item_at i ;;
  Motor_VelCtrl_SetRef (GroupItem.ctrl it) fzero ;;
  upd_item i (GroupItem.set_pd PD_zero).

Definition SCurveTraj_Group_Stop : Cmd Group.t unit :=
  upd_fol (Group.set_running false) ;;
  f <- get_fol ;;
  for_loop (Group.item_count f) group_stop_item tt.

(** One round of the summing loop: the two locals [start_position] and
    [start_velocity] are the pair carried along. *)
Definition group_sum_item (i : nat) (acc : float * float)
  : Cmd Group.t (float * float) :=
  it <- item_at i ;;
  a <- MotorCtrl_GetAngle (GroupItem.ctrl it) ;;
  v <- MotorCtrl_GetVelocity (GroupItem.ctrl it) ;;
  cret (fadd (fst acc) a, fadd (snd acc) v).

(** The start position and the start velocity handed to [SCurve_Init]. *)
Definition group_start_state : Cmd Group.t (float * float) :=
  f <- get_fol ;;
  acc <- for_loop (Group.item_count f) group_sum_item (fzero, fzero) ;;
  let start_position :=
    fdiv (fst acc) (float_of_size (Group.item_count f)) in
  let start_velocity :=
    fdiv (snd acc) (float_of_size (Group.item_count f)) in
  cret (start_position, start_velocity).

Definition group_s_curve_init (s : SCurve_t) (running : bool)
  (target : float) : Cmd Group.t (SCurve_Result_t * SCurve_t) :=
  start <- group_start_state ;;
  f <- get_fol ;;
  cret (SCurve_Init s
          (fst start)
          target
          (snd start)
          (if running then SCurve_CalcA (Group.s f) (Group.now f) else fzero)
          (Group.v_max f)
          (Group.a_max f)
          (Group.j_max f)).

Definition SCurveTraj_Group_SetTarget (target : float)
  : Cmd Group.t SCurve_Result_t :=
  f <- get_fol ;;
  let running := Group.running f in
  upd_fol (Group.set_running false) ;;
  f1 <- get_fol ;;
  rs <- group_s_curve_init (Group.s f1) running target ;;
  upd_fol (Group.set_s (snd rs)) ;;
  let r := fst rs in
  upd_fol (Group.set_now fzero) ;;
  (if is_success r then upd_fol (Group.set_running true)
   else SCurveTraj_Group_Stop) ;;
  cret r.

Definition SCurveTraj_Group_EstimateDuration (temps : SCurve_t)
  (target : float) : Cmd Group.t float :=
  f <- get_fol ;;
  rs <- group_s_curve_init temps (Group.running f) target ;;
  if negb (is_success (fst rs)) then cret fminus1
  else cret (total_time (snd rs)).

End GroupFollower.

(** ** The finished check

    [SCurveTraj_isFinished] is a macro over any struct with the fields
    [running], [now] and [s]; the class names those three fields. *)

Class Follower `{SCurveLib} (F : Type) := {
  f_running : F -> bool;
  f_now : F -> float;
  f_s : F -> SCurve_t
}.

#[export] Instance Axis_Follower `{SCurveLib} `{PDLib} : Follower Axis.t :=
  {| f_running := Axis.running; f_now := Axis.now; f_s := Axis.s |}.

#[export] Instance Group_Follower `{SCurveLib} `{PDLib} : Follower Group.t :=
  {| f_running := Group.running; f_now := Group.now; f_s := Group.s |}.

(** [((f)->running && (f)->now >= (f)->s.total_time)] *)
Definition SCurveTraj_isFinished `{SCurveLib} {F} `{!Follower F} (f : F)
  : bool :=
  f_running f && fgeb (f_now f) (total_time (f_s f)).

(** ** Running a command several times *)

Fixpoint ticks {F} (c : Cmd F unit) (n : nat) : Cmd F unit :=
  match n with
  | O => cret tt
  | S n' => cbind c (fun _ => ticks c n')
  end.

(** ** What the loops over the items compute

    A loop whose round [i] rewrites cell [i] of the array and the world is a
    left-to-right sweep over the cells: [step i w it] is the new cell and
    the new world of round [i], or nothing when the round fails. *)

Section Sweep.
Context `{PDLib}.
Variable step : nat -> World -> GroupItem.t -> option (GroupItem.t * World).

Fixpoint sweep (i : nat) (l : list GroupItem.t) (w : World)
  : option (list GroupItem.t * World) :=
  match l with
  | [] => Some ([], w)
  | it :: l' =>
      match step i w it with
      | Some (it', w') =>
          match sweep (S i) l' w' with
          | Some (r, w'') => Some (it' :: r, w'')
          | None => None
          end
      | None => None
      end
  end.
End Sweep.

Section Rounds.
Context `{SCurveLib} `{PDLib}.

(** A cell after one round of the update loop: the corrector is given the
    shared target and the cell's own measured position. *)
Definition corrected (target : float) (w : World) (it : GroupItem.t) : PD :=
  PD_Calculate
    (set_fdb (angle (motor w (GroupItem.ctrl it)))
             (set_ref target (GroupItem.pd it))).

(** The velocity command of a cell in that round. *)
Definition command (ff_velocity target : float) (w : World)
  (it : GroupItem.t) : float :=
  DPS2RPM (fadd ff_velocity (output (corrected target w it))).

Definition update_step (ff_velocity target : float) (_ : nat) (w : World)
  (it : GroupItem.t) : option (GroupItem.t * World) :=
  Some (GroupItem.set_pd (corrected target w it) it,
        send (GroupItem.ctrl it) (command ff_velocity target w it) w).

Definition stop_step (_ : nat) (w : World) (it : GroupItem.t)
  : option (GroupItem.t * World) :=
  Some (GroupItem.set_pd PD_zero it, send (GroupItem.ctrl it) fzero w).

Definition reset_step (_ : nat) (w : World) (it : GroupItem.t)
  : option (GroupItem.t * World) :=
  Some (GroupItem.set_pd PD_zero it,
        rehome (GroupItem.ctrl it) (send (GroupItem.ctrl it) fzero w)).

Definition init_item (c : GroupItemConfig.t) (it : GroupItem.t)
  : GroupItem.t :=
  {| GroupItem.ctrl := GroupItemConfig.ctrl c;
     GroupItem.pd := PD_Init (GroupItem.pd it) (GroupItemConfig.error_pd c) |}.

Definition init_step (cfgs : list GroupItemConfig.t) (i : nat) (w : World)
  (it : GroupItem.t) : option (GroupItem.t * World) :=
  match cfgs !! i with
  | Some c => Some (init_item c it, w)
  | None => None
  end.

(** The world after one velocity command per cell, first cell first. *)
Definition send_all (c : GroupItem.t -> float) (l : list GroupItem.t)
  (w : World) : World :=
  fold_left (fun w it => send (GroupItem.ctrl it) (c it) w) l w.

(** The world after the loop of [SCurveTraj_Group_ResetAll]. *)
Definition rehome_all (l : list GroupItem.t) (w : World) : World :=
  fold_left (fun w it => rehome (GroupItem.ctrl it)
                           (send (GroupItem.ctrl it) fzero w)) l w.

(** The array after each of the loops has run over its first [n] cells. *)
Definition cleared (n : nat) (l : list GroupItem.t) : list GroupItem.t :=
  (GroupItem.set_pd PD_zero <$> take n l) ++ drop n l.

Definition corrected_items (target : float) (w : World) (n : nat)
  (l : list GroupItem.t) : list GroupItem.t :=
  ((fun it => GroupItem.set_pd (corrected target w it) it) <$> take n l)
  ++ drop n l.

Definition initialised (cfgs : list GroupItemConfig.t) (n : nat)
  (l : list GroupItem.t) : list GroupItem.t :=
  zip_with init_item (take n cfgs) (take n l) ++ drop n l.

(** The measured positions and velocities of the first [n] cells. *)
Definition positions (w : World) (n : nat) (l : list GroupItem.t)
  : list float :=
  (fun it => angle (motor w (GroupItem.ctrl it))) <$> take n l.

Definition velocities (w : World) (n : nat) (l : list GroupItem.t)
  : list float :=
  (fun it => velocity (motor w (GroupItem.ctrl it))) <$> take n l.
End Rounds.

(** The arithmetic mean of the spec, in binary32: the sum of the values,
    added from the left starting at +0, divided by their number. *)
Definition arithmetic_mean (l : list float) : float :=
  fdiv (fold_left fadd l fzero) (float_of_size (length l)).

(** ** The operations of a follower, as data *)

Inductive AxisOp `{SCurveLib} `{PDLib} :=
| AxInit (config : SCurveTrajFollower_AxisConfig_t)
| AxUpdate
| AxStop
| AxResetAll
| AxSetTarget (target : float)
| AxEstimateDuration (temps : SCurve_t) (target : float).

Definition run_axis_op `{SCurveLib} `{PDLib} (op : AxisOp) : Cmd Axis.t unit :=
  match op with
  | AxInit config => SCurveTraj_Axis_Init config
  | AxUpdate => SCurveTraj_Axis_Update
  | AxStop => SCurveTraj_Axis_Stop
  | AxResetAll => SCurveTraj_Axis_ResetAll
  | AxSetTarget target =>
      cbind (SCurveTraj_Axis_SetTarget target) (fun _ => cret tt)
  | AxEstimateDuration temps target =>
      cbind (SCurveTraj_Axis_EstimateDuration temps target) (fun _ => cret tt)
  end.

Inductive GroupOp `{SCurveLib} `{PDLib} :=
| GrInit (config : SCurveTrajFollower_GroupConfig_t)
| GrUpdate
| GrStop
| GrResetAll
| GrSetTarget (target : float)
| GrEstimateDuration (temps : SCurve_t) (target : float).

Definition run_group_op `{SCurveLib} `{PDLib} (op : GroupOp)
  : Cmd Group.t unit :=
  match op with
  | GrInit config => SCurveTraj_Group_Init config
  | GrUpdate => SCurveTraj_Group_Update
  | GrStop => SCurveTraj_Group_Stop
  | GrResetAll => SCurveTraj_Group_ResetAll
  | GrSetTarget target =>
      cbind (SCurveTraj_Group_SetTarget target) (fun _ => cret tt)
  | GrEstimateDuration temps target =>
      cbind (SCurveTraj_Group_EstimateDuration temps target) (fun _ => cret tt)
  end.

(** What an operation leaves in the elapsed-time field [now]. *)
Definition axis_now_after `{SCurveLib} `{PDLib} (op : AxisOp) (f : Axis.t)
  : float :=
  match op with
  | AxSetTarget _ => fzero
  | AxInit config =>
      if feqb (AxisConfig.update_interval config) fzero then Axis.now f
      else fzero
  | AxUpdate =>
      if Axis.running f then fadd (Axis.now f) (Axis.update_interval f)
      else Axis.now f
  | AxStop | AxResetAll | AxEstimateDuration _ _ => Axis.now f
  end.

Definition group_now_after `{SCurveLib} `{PDLib} (op : GroupOp) (f : Group.t)
  : float :=
  match op with
  | GrSetTarget _ => fzero
  | GrInit config =>
      if feqb (GroupConfig.update_interval config) fzero then Group.now f
      else fzero
  | GrUpdate =>
      if Group.running f then fadd (Group.now f) (Group.update_interval f)
      else Group.now f
  | GrStop | GrResetAll | GrEstimateDuration _ _ => Group.now f
  end.

(** The loops of an operation stay inside the arrays they index. *)
Definition group_op_in_bounds `{SCurveLib} `{PDLib} (op : GroupOp)
  (f : Group.t) : Prop :=
  match op with
  | GrInit config =>
      (GroupConfig.item_count config <= length (GroupConfig.items config))%nat
      /\ (GroupConfig.item_count config
          <= length (GroupConfig.item_configs config))%nat
  | _ => (Group.item_count f <= length (Group.items f))%nat
  end.

(** A sequence of operations, run in order. *)
Fixpoint run_axis_ops `{SCurveLib} `{PDLib} (ops : list AxisOp)
  : Cmd Axis.t unit :=
  match ops with
  | [] => cret tt
  | op :: ops' => cbind (run_axis_op op) (fun _ => run_axis_ops ops')
  end.

Fixpoint run_group_ops `{SCurveLib} `{PDLib} (ops : list GroupOp)
  : Cmd Group.t unit :=
  match ops with
  | [] => cret tt
  | op :: ops' => cbind (run_group_op op) (fun _ => run_group_ops ops')
  end.

Definition axis_is_init `{SCurveLib} `{PDLib} (op : AxisOp) : bool :=
  match op with AxInit _ => true | _ => false end.

Definition group_is_init `{SCurveLib} `{PDLib} (op : GroupOp) : bool :=
  match op with GrInit _ => true | _ => false end.

(** The count of a group does not exceed its array. *)
Definition group_in_bounds `{SCurveLib} `{PDLib} (f : Group.t) : Prop :=
  (Group.item_count f <= length (Group.items f))%nat.

(** The configuration of an [Init] fits its two arrays. *)
Definition group_op_fits `{SCurveLib} `{PDLib} (op : GroupOp) : Prop :=
  match op with
  | GrInit config =>
      (GroupConfig.item_count config <= length (GroupConfig.items config))%nat
      /\ (GroupConfig.item_count config
          <= length (GroupConfig.item_configs config))%nat
  | _ => True
  end.

(** The motor handles of the cells a group loops over. *)
Definition group_handles `{SCurveLib} `{PDLib} (f : Group.t) : list handle :=
  GroupItem.ctrl <$> take (Group.item_count f) (Group.items f).

(** What no operation but [Init] changes: the handles, the interval and
    the limits, and for a group the count and the length of its array. *)
Definition axis_same_setup `{SCurveLib} `{PDLib} (f f' : Axis.t) : Prop :=
  Axis.ctrl f' = Axis.ctrl f /\
  Axis.update_interval f' = Axis.update_interval f /\
  Axis.v_max f' = Axis.v_max f /\
  Axis.a_max f' = Axis.a_max f /\
  Axis.j_max f' = Axis.j_max f.

Definition group_same_setup `{SCurveLib} `{PDLib} (f f' : Group.t) : Prop :=
  Group.item_count f' = Group.item_count f /\
  GroupItem.ctrl <$> Group.items f' = GroupItem.ctrl <$> Group.items f /\
  Group.update_interval f' = Group.update_interval f /\
  Group.v_max f' = Group.v_max f /\
  Group.a_max f' = Group.a_max f /\
  Group.j_max f' = Group.j_max f.

(** The world [w'] differs from [w] at most in the motors [hs], and in no
    measured velocity. *)
Definition world_frame (hs : list handle) (w w' : World) : Prop :=
  (forall h, h ∉ hs -> motor w' h = motor w h) /\
  (forall h, velocity (motor w' h) = velocity (motor w h)).

(** The group of one cell that stands for an axis: the same flag, timing,
    curve and limits, and the motor and corrector of the axis in its only
    cell. *)
Definition group_of_axis `{SCurveLib} `{PDLib} (f : Axis.t) : Group.t :=
  {| Group.running := Axis.running f;
     Group.update_interval := Axis.update_interval f;
     Group.s := Axis.s f;
     Group.v_max := Axis.v_max f;
     Group.a_max := Axis.a_max f;
     Group.j_max := Axis.j_max f;
     Group.items := [{| GroupItem.ctrl := Axis.ctrl f;
                        GroupItem.pd := Axis.pd f |}];
     Group.item_count := 1;
     Group.now := Axis.now f |}.

(** ** Two libraries to run the follower on

    Concrete instances of the two interfaces, for evaluating the follower
    on explicit inputs. *)

Module Standin.

Definition fsub : float -> float -> float := SFsub prec emax.
Definition fpos (x : float) : bool := SFltb fzero x.

(** A curve that keeps the boundary conditions it was planned from, so
    that the arguments of a planning call can be read back.  Planning
    fails when one of the three limits is not positive or the start
    velocity is beyond [v_max]; the curve moves at [v_max] for the
    duration |xt - x0| / v_max. *)
Record curve := {
  c_x0 : float; c_xt : float; c_v0 : float; c_a0 : float;
  c_v : float; c_total : float
}.

Definition curve_zero : curve :=
  {| c_x0 := fzero; c_xt := fzero; c_v0 := fzero; c_a0 := fzero;
     c_v := fzero; c_total := fzero |}.

Definition plan (_ : curve) (x0 xt v0 a0 vmax amax jmax : float)
  : SCurve_Result_t * curve :=
  if fpos vmax && fpos amax && fpos jmax && fgeb vmax (SFabs v0)
  then (S_CURVE_SUCCESS,
        {| c_x0 := x0; c_xt := xt; c_v0 := v0; c_a0 := a0; c_v := vmax;
           c_total := fdiv (SFabs (fsub xt x0)) vmax |})
  else (S_CURVE_FAILED,
        {| c_x0 := x0; c_xt := xt; c_v0 := v0; c_a0 := a0; c_v := vmax;
           c_total := fzero |}).

Definition curve_lib : SCurveLib :=
  {| SCurve_t := curve;
     total_time := c_total;
     SCurve_Init := plan;
     SCurve_CalcX := fun c t => if fgeb t (c_total c) then c_xt c else c_x0 c;
     SCurve_CalcV := fun c t => if fgeb t (c_total c) then fzero else c_v c;
     SCurve_CalcA := fun c _ => c_a0 c;
     SCurve_Reset := fun _ => curve_zero |}.

(** Modelled from the spec: libs/pid_pd.h is missing.  The corrector is a
    proportional-derivative law on the error between reference and
    feedback; the header of the follower documents a [max_output] of the
    corrector, in degrees per second, which limits the output. *)
Record gains := {
  Kp : float; Kd : float; max_output : float; last_error : float
}.

Definition gains_zero : gains :=
  {| Kp := fzero; Kd := fzero; max_output := fzero; last_error := fzero |}.

Definition clamp (lim x : float) : float :=
  if SFltb lim x then lim
  else if SFltb x (SFopp lim) then SFopp lim
  else x.

Definition pd_calculate (p : PD_t gains) : PD_t gains :=
  let g := rest p in
  let err := fsub (ref p) (fdb p) in
  let out := fadd (fmul (Kp g) err) (fmul (Kd g) (fsub err (last_error g))) in
  {| ref := ref p; fdb := fdb p;
     output := clamp (max_output g) out;
     rest := {| Kp := Kp g; Kd := Kd g; max_output := max_output g;
                last_error := err |} |}.

(** The configuration is the three parameters; [last_error] is unused. *)
Definition pd_init (_ : PD_t gains) (c : gains) : PD_t gains :=
  {| ref := fzero; fdb := fzero; output := fzero;
     rest := {| Kp := Kp c; Kd := Kd c; max_output := max_output c;
                last_error := fzero |} |}.

Definition pd_lib : PDLib :=
  {| PD_rest := gains;
     PD_rest_zero := gains_zero;
     PD_Config_t := gains;
     PD_Init := pd_init;
     PD_Calculate := pd_calculate |}.

(** A motor at rest at a given position. *)
Definition motor_at (a : float) : Motor_VelCtrl_t :=
  {| angle := a; velocity := fzero; vel_ref := fzero |}.

(** Five motors: the motor with handle [h] stands at [h] times one
    hundred degrees and turns at [h] times ten degrees per second.  Any
    other handle names a motor at rest at zero. *)
Definition bench : list Motor_VelCtrl_t :=
  (fun k => {| angle := float_of_Z (100 * k);
               velocity := float_of_Z (10 * k);
               vel_ref := fzero |}) <$> [0; 1; 2; 3; 4].

Definition world0 : World :=
  {| motor := fun h => nth h bench (motor_at fzero); sent := [] |}.

(** 2^-10 seconds, close to a millisecond. *)
Definition tick : float := S754_finite false 8388608 (-33).

(** A corrector of gain one, limited to ten degrees per second. *)
Definition pd0 : PD_t gains :=
  pd_init {| ref := fzero; fdb := fzero; output := fzero; rest := gains_zero |}
    {| Kp := float_of_Z 1; Kd := fzero; max_output := float_of_Z 10;
       last_error := fzero |}.

(** A follower on motor [h] with the limits of the spec's scenario
    (180, 360, 720), and with every field open to choice that the
    properties below vary. *)
Definition axis_on (h : handle) (run : bool) (vmax now : float)
  : @Axis.t curve_lib pd_lib :=
  @Axis.Build_t curve_lib pd_lib
    run tick curve_zero pd0 h vmax (float_of_Z 360) (float_of_Z 720) now.

Definition item_on (h : handle) : @GroupItem.t pd_lib :=
  @GroupItem.Build_t pd_lib h pd0.

Definition group_on (hs : list handle) (n : nat) (run : bool)
  (vmax now : float) : @Group.t curve_lib pd_lib :=
  @Group.Build_t curve_lib pd_lib
    run tick curve_zero vmax (float_of_Z 360) (float_of_Z 720)
    (item_on <$> hs) n now.

(** Motor 3 turns at 30 degrees per second, beyond a [v_max] of 20: a
    running axis on it, and a running group on motors 3 and 4. *)
Definition fast_axis : Mach (@Axis.t curve_lib pd_lib) :=
  {| fol := axis_on 3 true (float_of_Z 20) (float_of_Z 5); env := world0 |}.

Definition fast_group : Mach (@Group.t curve_lib pd_lib) :=
  {| fol := group_on [3; 4]%nat 2 true (float_of_Z 20) (float_of_Z 5);
     env := world0 |}.

(** A running group on motors 1 and 2, which stand a hundred degrees
    apart, following the zero curve. *)
Definition desync_group : Mach (@Group.t curve_lib pd_lib) :=
  {| fol := group_on [1; 2]%nat 2 true (float_of_Z 180) fzero;
     env := world0 |}.

(** A running axis on motor 2 and a running group on motors 1 and 2
    whose curve, of duration zero, is over. *)
Definition done_axis : Mach (@Axis.t curve_lib pd_lib) :=
  {| fol := axis_on 2 true (float_of_Z 180) fzero; env := world0 |}.

Definition done_group : Mach (@Group.t curve_lib pd_lib) := desync_group.

(** A group with no cell. *)
Definition empty_group : Mach (@Group.t curve_lib pd_lib) :=
  {| fol := group_on [] 0 false (float_of_Z 180) fzero; env := world0 |}.

(** A configuration whose update interval is zero, and one whose
    interval is a tick. *)
Definition axis_config (ui : float) : @AxisConfig.t pd_lib :=
  @AxisConfig.Build_t pd_lib ui (rest pd0) 1%nat
    (float_of_Z 180) (float_of_Z 360) (float_of_Z 720).

(** The finished check at the two libraries. *)
Definition axis_finished (f : @Axis.t curve_lib pd_lib) : bool :=
  @SCurveTraj_isFinished curve_lib _ (@Axis_Follower curve_lib pd_lib) f.

Definition group_finished (f : @Group.t curve_lib pd_lib) : bool :=
  @SCurveTraj_isFinished curve_lib _ (@Group_Follower curve_lib pd_lib) f.

(** A configuration for a group of two cells on motors 3 and 4, over
    storage that holds cells on motors 1 and 2. *)
Definition group_config (ui : float) : @GroupConfig.t pd_lib :=
  @GroupConfig.Build_t pd_lib ui
    [@GroupItemConfig.Build_t pd_lib 3%nat (rest pd0);
     @GroupItemConfig.Build_t pd_lib 4%nat (rest pd0)]
    (item_on <$> [1; 2]%nat) 2
    (float_of_Z 180) (float_of_Z 360) (float_of_Z 720).

(** An axis whose update interval is minus one tick, at the end of its
    curve. *)
Definition backward_axis : Mach (@Axis.t curve_lib pd_lib) :=
  {| fol := Axis.set_update_interval (SFopp tick)
              (axis_on 2 true (float_of_Z 180) fzero);
     env := world0 |}.

(** A session on a group: retarget, two ticks, an estimate, stop, reset,
    re-initialise on motors 3 and 4, retarget, tick. *)
Definition group_session : list (@GroupOp curve_lib pd_lib) :=
  [@GrSetTarget curve_lib pd_lib (float_of_Z 90);
   @GrUpdate curve_lib pd_lib;
   @GrUpdate curve_lib pd_lib;
   @GrEstimateDuration curve_lib pd_lib curve_zero (float_of_Z 45);
   @GrStop curve_lib pd_lib;
   @GrResetAll curve_lib pd_lib;
   @GrInit curve_lib pd_lib (group_config tick);
   @GrSetTarget curve_lib pd_lib (float_of_Z 90);
   @GrUpdate curve_lib pd_lib].

(** The same without the [Init]. *)
Definition group_run : list (@GroupOp curve_lib pd_lib) :=
  [@GrSetTarget curve_lib pd_lib (float_of_Z 90);
   @GrUpdate curve_lib pd_lib;
   @GrUpdate curve_lib pd_lib;
   @GrEstimateDuration curve_lib pd_lib curve_zero (float_of_Z 45);
   @GrStop curve_lib pd_lib;
   @GrResetAll curve_lib pd_lib].

Definition axis_run : list (@AxisOp curve_lib pd_lib) :=
  [@AxSetTarget curve_lib pd_lib (float_of_Z 90);
   @AxUpdate curve_lib pd_lib;
   @AxUpdate curve_lib pd_lib;
   @AxStop curve_lib pd_lib;
   @AxResetAll curve_lib pd_lib].

(** A running group whose count, 2, is beyond its array of one cell. *)
Definition short_group : Mach (@Group.t curve_lib pd_lib) :=
  {| fol := group_on [1]%nat 2 true (float_of_Z 180) fzero; env := world0 |}.

(** A configuration that names three cells over arrays of two. *)
Definition long_config : @GroupConfig.t pd_lib :=
  @GroupConfig.Build_t pd_lib tick
    [@GroupItemConfig.Build_t pd_lib 3%nat (rest pd0);
     @GroupItemConfig.Build_t pd_lib 4%nat (rest pd0)]
    (item_on <$> [1; 2]%nat) 3
    (float_of_Z 180) (float_of_Z 360) (float_of_Z 720).

End Standin.

(** * Properties *)

(** Unfolds a straight-line command down to its result. *)
Ltac run_cmd :=
  cbv [cbind cret cfail get_fol upd_fol read_env upd_env
       MotorCtrl_GetAngle MotorCtrl_GetVelocity Motor_VelCtrl_SetRef
       MotorCtrl_ResetAngle]; cbn [fol env fst snd].

Section AxisFacts.
Context `{SCurveLib} `{PDLib}.

(** The curve planned by [axis_s_curve_init], as a function of follower
    and world. *)
Lemma axis_s_curve_init_run (c : SCurve_t) (running : bool) (target : float)
  (m : Mach Axis.t) :
  axis_s_curve_init c running target m =
  Some (SCurve_Init c
          (angle (motor (env m) (Axis.ctrl (fol m))))
          target
          (velocity (motor (env m) (Axis.ctrl (fol m))))
          (if running then SCurve_CalcA (Axis.s (fol m)) (Axis.now (fol m))
           else fzero)
          (Axis.v_max (fol m)) (Axis.a_max (fol m)) (Axis.j_max (fol m)),
        m).
Proof. reflexivity. Qed.

Lemma axis_stop_run (m : Mach Axis.t) :
  SCurveTraj_Axis_Stop m =
  Some (tt, {| fol := Axis.set_pd PD_zero (Axis.set_running false (fol m));
               env := send (Axis.ctrl (fol m)) fzero (env m) |}).
Proof. reflexivity. Qed.

Lemma axis_set_target_run (target : float) (m : Mach Axis.t) :
  let rs := SCurve_Init (Axis.s (fol m))
              (angle (motor (env m) (Axis.ctrl (fol m))))
              target
              (velocity (motor (env m) (Axis.ctrl (fol m))))
              (if Axis.running (fol m)
               then SCurve_CalcA (Axis.s (fol m)) (Axis.now (fol m))
               else fzero)
              (Axis.v_max (fol m)) (Axis.a_max (fol m)) (Axis.j_max (fol m)) in
  let f1 := Axis.set_now fzero (Axis.set_s (snd rs) (fol m)) in
  SCurveTraj_Axis_SetTarget target m =
  Some (fst rs,
        if is_success (fst rs)
        then {| fol := Axis.set_running true f1; env := env m |}
        else {| fol := Axis.set_pd PD_zero (Axis.set_running false f1);
                env := send (Axis.ctrl (fol m)) fzero (env m) |}).
Proof.
  cbv zeta. unfold SCurveTraj_Axis_SetTarget. run_cmd.
  rewrite axis_s_curve_init_run. cbn [fol env fst snd].
  cbn [Axis.set_running Axis.s Axis.ctrl Axis.now Axis.v_max Axis.a_max
       Axis.j_max].
  destruct (SCurve_Init _ _ _ _ _ _ _ _) as [[|] c]; reflexivity.
Qed.

Lemma axis_estimate_run (temps : SCurve_t) (target : float)
  (m : Mach Axis.t) :
  let rs := SCurve_Init temps
              (angle (motor (env m) (Axis.ctrl (fol m))))
              target
              (velocity (motor (env m) (Axis.ctrl (fol m))))
              (if Axis.running (fol m)
               then SCurve_CalcA (Axis.s (fol m)) (Axis.now (fol m))
               else fzero)
              (Axis.v_max (fol m)) (Axis.a_max (fol m)) (Axis.j_max (fol m)) in
  SCurveTraj_Axis_EstimateDuration temps target m =
  Some (if is_success (fst rs) then total_time (snd rs) else fminus1, m).
Proof.
  cbv zeta. unfold SCurveTraj_Axis_EstimateDuration. run_cmd.
  rewrite axis_s_curve_init_run. cbn [fol env fst snd].
  destruct (SCurve_Init _ _ _ _ _ _ _ _) as [[|] c]; reflexivity.
Qed.

Lemma axis_update_run (m : Mach Axis.t) :
  let f := fol m in
  let now := fadd (Axis.now f) (Axis.update_interval f) in
  let p := PD_Calculate
             (set_fdb (angle (motor (env m) (Axis.ctrl f)))
                      (set_ref (SCurve_CalcX (Axis.s f) now) (Axis.pd f))) in
  SCurveTraj_Axis_Update m =
  Some (tt,
        if Axis.running f
        then {| fol := Axis.set_pd p (Axis.set_now now f);
                env := send (Axis.ctrl f)
                         (DPS2RPM (fadd (SCurve_CalcV (Axis.s f) now)
                                        (output p)))
                         (env m) |}
        else m).
Proof.
  cbv zeta. unfold SCurveTraj_Axis_Update. run_cmd.
  destruct (Axis.running (fol m)); reflexivity.
Qed.

Lemma axis_reset_all_run (m : Mach Axis.t) :
  SCurveTraj_Axis_ResetAll m =
  Some (tt,
        {| fol := Axis.set_pd PD_zero
                    (Axis.set_s (SCurve_Reset (Axis.s (fol m)))
                       (Axis.set_running false (fol m)));
           env := rehome (Axis.ctrl (fol m))
                    (send (Axis.ctrl (fol m)) fzero (env m)) |}).
Proof. reflexivity. Qed.

Lemma axis_init_run (config : SCurveTrajFollower_AxisConfig_t)
  (m : Mach Axis.t) :
  SCurveTraj_Axis_Init config m =
  Some (tt,
        if feqb (AxisConfig.update_interval config) fzero then m
        else {| fol :=
                  {| Axis.running := false;
                     Axis.update_interval :=
                       AxisConfig.update_interval config;
                     Axis.s := Axis.s (fol m);
                     Axis.pd := PD_Init (Axis.pd (fol m))
                                  (AxisConfig.error_pd config);
                     Axis.ctrl := AxisConfig.motor_vel_ctrl config;
                     Axis.v_max := AxisConfig.v_max config;
                     Axis.a_max := AxisConfig.a_max config;
                     Axis.j_max := AxisConfig.j_max config;
                     Axis.now := fzero |};
                env := env m |}).
Proof.
  unfold SCurveTraj_Axis_Init.
  destruct (feqb (AxisConfig.update_interval config) fzero); reflexivity.
Qed.

End AxisFacts.

(** ** Loops over the items *)

Section Loops.
Context `{SCurveLib} `{PDLib}.

Lemma set_items_same (f : Group.t) : Group.set_items (Group.items f) f = f.
Proof. destruct f; reflexivity. Qed.

Lemma mach_eta {F} (m : Mach F) : {| fol := fol m; env := env m |} = m.
Proof. destruct m; reflexivity. Qed.

(** A loop whose rounds rewrite their own cell is the sweep of its step
    over the cells it visits. *)
Lemma for_from_sweep
  (body : nat -> unit -> Cmd Group.t unit)
  (step : nat -> World -> GroupItem.t -> option (GroupItem.t * World))
  (Hbody : forall i m it,
      Group.items (fol m) !! i = Some it ->
      body i tt m =
      match step i (env m) it with
      | Some (it', w') =>
          Some (tt, {| fol := Group.set_items
                                (<[i := it']> (Group.items (fol m))) (fol m);
                       env := w' |})
      | None => None
      end) :
  forall (k : nat) (done todo : list GroupItem.t) (m : Mach Group.t),
    Group.items (fol m) = done ++ todo ->
    (k <= length todo)%nat ->
    for_from (length done) k body tt m =
    match sweep step (length done) (take k todo) (env m) with
    | Some (r, w') =>
        Some (tt, {| fol := Group.set_items (done ++ r ++ drop k todo) (fol m);
                     env := w' |})
    | None => None
    end.
Proof.
  induction k as [|k IH]; intros done todo m Hitems Hk.
  - rewrite take_0, drop_0. cbn [for_from sweep app].
    rewrite <- Hitems, set_items_same, mach_eta. reflexivity.
  - destruct todo as [|it todo]; [cbn in Hk; lia|].
    cbn [for_from take sweep]. unfold cbind at 1.
    rewrite (Hbody _ _ it) by (rewrite Hitems; apply list_lookup_middle; reflexivity).
    destruct (step (length done) (env m) it) as [[it' w']|]; [|reflexivity].
    specialize (IH (done ++ [it']) todo
                   {| fol := Group.set_items
                               (<[length done := it']> (Group.items (fol m)))
                               (fol m);
                      env := w' |}).
    rewrite length_app in IH. cbn [length] in IH.
    replace (length done + 1)%nat with (S (length done)) in IH by lia.
    rewrite IH.
    + cbn [env fol].
      destruct (sweep step (S (length done)) (take k todo) w') as [[r w'']|];
        [|reflexivity].
      cbn [drop]. rewrite <- app_assoc. reflexivity.
    + cbn [fol]. destruct (fol m); cbn in *. subst.
      rewrite (insert_app_r_alt done (it :: todo) (length done)) by lia.
      rewrite Nat.sub_diag. cbn [insert list_insert].
      rewrite <- app_assoc. reflexivity.
    + cbn in Hk. lia.
Qed.

Lemma for_loop_sweep body step
  (Hbody : forall i m it,
      Group.items (fol m) !! i = Some it ->
      body i tt m =
      match step i (env m) it with
      | Some (it', w') =>
          Some (tt, {| fol := Group.set_items
                                (<[i := it']> (Group.items (fol m))) (fol m);
                       env := w' |})
      | None => None
      end)
  (n : nat) (m : Mach Group.t) :
  (n <= length (Group.items (fol m)))%nat ->
  for_loop n body tt m =
  match sweep step 0 (take n (Group.items (fol m))) (env m) with
  | Some (r, w') =>
      Some (tt, {| fol := Group.set_items
                            (r ++ drop n (Group.items (fol m))) (fol m);
                   env := w' |})
  | None => None
  end.
Proof.
  intros Hn. unfold for_loop.
  apply (for_from_sweep body step Hbody n [] (Group.items (fol m)) m);
    [reflexivity | exact Hn].
Qed.

(** Reading a cell, then writing it. *)
Lemma item_at_run i (m : Mach Group.t) it :
  Group.items (fol m) !! i = Some it -> item_at i m = Some (it, m).
Proof. intros E. unfold item_at. rewrite E. reflexivity. Qed.

Lemma upd_item_run i g (m : Mach Group.t) it :
  Group.items (fol m) !! i = Some it ->
  upd_item i g m =
  Some (tt, {| fol := Group.set_items (<[i := g it]> (Group.items (fol m)))
                        (fol m);
               env := env m |}).
Proof. intros E. unfold upd_item. rewrite E. reflexivity. Qed.

Lemma lookup_after_insert (l : list GroupItem.t) i it x :
  l !! i = Some it -> <[i := x]> l !! i = Some x.
Proof.
  intros E. apply list_lookup_insert_eq. eapply lookup_lt_Some, E.
Qed.

End Loops.

(** ** The rounds of the four loops *)

Section GroupRounds.
Context `{SCurveLib} `{PDLib}.

Lemma group_stop_item_step i (m : Mach Group.t) it :
  Group.items (fol m) !! i = Some it ->
  group_stop_item i tt m =
  match stop_step i (env m) it with
  | Some (it', w') =>
      Some (tt, {| fol := Group.set_items
                            (<[i := it']> (Group.items (fol m))) (fol m);
                   env := w' |})
  | None => None
  end.
Proof.
  intros E. unfold group_stop_item, stop_step, cbind at 1.
  rewrite (item_at_run _ _ _ E). unfold cbind at 1.
  cbv [Motor_VelCtrl_SetRef upd_env]. cbn [fol env].
  rewrite (upd_item_run _ _ _ it) by exact E. reflexivity.
Qed.

Lemma group_reset_item_step i (m : Mach Group.t) it :
  Group.items (fol m) !! i = Some it ->
  group_reset_item i tt m =
  match reset_step i (env m) it with
  | Some (it', w') =>
      Some (tt, {| fol := Group.set_items
                            (<[i := it']> (Group.items (fol m))) (fol m);
                   env := w' |})
  | None => None
  end.
Proof.
  intros E. unfold group_reset_item, reset_step, cbind at 1.
  rewrite (upd_item_run _ _ _ it) by exact E. unfold cbind at 1.
  rewrite (item_at_run _ _ (GroupItem.set_pd PD_zero it))
    by (cbn; eapply lookup_after_insert, E).
  reflexivity.
Qed.

Lemma group_update_item_step ff target i (m : Mach Group.t) it :
  Group.items (fol m) !! i = Some it ->
  group_update_item ff target i tt m =
  match update_step ff target i (env m) it with
  | Some (it', w') =>
      Some (tt, {| fol := Group.set_items
                            (<[i := it']> (Group.items (fol m))) (fol m);
                   env := w' |})
  | None => None
  end.
Proof.
  intros E. unfold group_update_item, update_step, cbind at 1.
  rewrite (upd_item_run _ _ _ it) by exact E. unfold cbind at 1.
  erewrite item_at_run by (cbn; eapply lookup_after_insert, E).
  unfold cbind at 1. cbv [MotorCtrl_GetAngle read_env]. cbn [fol env].
  unfold cbind at 1.
  erewrite upd_item_run by (cbn; eapply lookup_after_insert, E).
  unfold cbind at 1.
  erewrite upd_item_run by
    (cbn; rewrite list_insert_insert_eq; eapply lookup_after_insert, E).
  unfold cbind at 1.
  erewrite item_at_run by
    (cbn; rewrite !list_insert_insert_eq; eapply lookup_after_insert, E).
  cbn. rewrite !list_insert_insert_eq. reflexivity.
Qed.

Lemma group_init_item_step (config : SCurveTrajFollower_GroupConfig_t) i
  (m : Mach Group.t) it :
  Group.items (fol m) !! i = Some it ->
  group_init_item config i tt m =
  match init_step (GroupConfig.item_configs config) i (env m) it with
  | Some (it', w') =>
      Some (tt, {| fol := Group.set_items
                            (<[i := it']> (Group.items (fol m))) (fol m);
                   env := w' |})
  | None => None
  end.
Proof.
  intros E. unfold group_init_item, item_config_at, init_step.
  destruct (GroupConfig.item_configs config !! i) as [c|]; [|reflexivity].
  unfold cbind at 1. cbv [cret]. unfold cbind at 1.
  rewrite (upd_item_run _ _ _ it) by exact E.
  erewrite upd_item_run by (cbn; eapply lookup_after_insert, E).
  cbn. rewrite list_insert_insert_eq. reflexivity.
Qed.

End GroupRounds.

(** ** The world under velocity commands *)

Section WorldFacts.
Context `{PDLib}.

Lemma send_angle h v w h' : angle (motor (send h v w) h') = angle (motor w h').
Proof.
  unfold send; cbn. unfold alter, fn_alter.
  destruct (decide (h = h')); subst; reflexivity.
Qed.

Lemma send_velocity h v w h' :
  velocity (motor (send h v w) h') = velocity (motor w h').
Proof.
  unfold send; cbn. unfold alter, fn_alter.
  destruct (decide (h = h')); subst; reflexivity.
Qed.

Lemma send_vel_ref_same h v w : vel_ref (motor (send h v w) h) = v.
Proof. unfold send; cbn. rewrite fn_lookup_alter. reflexivity. Qed.



Lemma send_all_angle c (l : list GroupItem.t) : forall w h,
  angle (motor (send_all c l w) h) = angle (motor w h).
Proof.
  induction l as [|it l IH]; intros w h; [reflexivity|].
  unfold send_all in *; cbn [fold_left]. rewrite IH. apply send_angle.
Qed.

Lemma send_all_velocity c (l : list GroupItem.t) : forall w h,
  velocity (motor (send_all c l w) h) = velocity (motor w h).
Proof.
  induction l as [|it l IH]; intros w h; [reflexivity|].
  unfold send_all in *; cbn [fold_left]. rewrite IH. apply send_velocity.
Qed.



End WorldFacts.

(** ** What each sweep yields *)

Section Sweeps.
Context `{SCurveLib} `{PDLib}.

Lemma sweep_stop (l : list GroupItem.t) : forall i w,
  sweep stop_step i l w =
  Some (GroupItem.set_pd PD_zero <$> l, send_all (fun _ => fzero) l w).
Proof.
  induction l as [|it l IH]; intros i w; [reflexivity|].
  cbn [sweep stop_step]. rewrite IH. reflexivity.
Qed.

Lemma sweep_reset (l : list GroupItem.t) : forall i w,
  sweep reset_step i l w =
  Some (GroupItem.set_pd PD_zero <$> l, rehome_all l w).
Proof.
  induction l as [|it l IH]; intros i w; [reflexivity|].
  cbn [sweep reset_step]. rewrite IH. reflexivity.
Qed.

Lemma corrected_angle target w w0 it :
  (forall h, angle (motor w h) = angle (motor w0 h)) ->
  corrected target w it = corrected target w0 it.
Proof. intros E. unfold corrected. rewrite E. reflexivity. Qed.

(** The positions read during the update loop are those at its start:
    a velocity command does not move a motor. *)
Lemma sweep_update ff target (w0 : World) (l : list GroupItem.t) :
  forall i w,
    (forall h, angle (motor w h) = angle (motor w0 h)) ->
    sweep (update_step ff target) i l w =
    Some ((fun it => GroupItem.set_pd (corrected target w0 it) it) <$> l,
          send_all (command ff target w0) l w).
Proof.
  induction l as [|it l IH]; intros i w E; [reflexivity|].
  cbn [sweep update_step].
  rewrite (IH (S i)) by (intros h; rewrite send_angle; apply E).
  unfold command. rewrite (corrected_angle target w w0 it E). reflexivity.
Qed.

Lemma sweep_init (cfgs : list GroupItemConfig.t) (l : list GroupItem.t) :
  forall i w,
    (i + length l <= length cfgs)%nat ->
    sweep (init_step cfgs) i l w =
    Some (zip_with init_item (take (length l) (drop i cfgs)) l, w).
Proof.
  induction l as [|it l IH]; intros i w Hlen; [reflexivity|].
  cbn [sweep length] in *. unfold init_step at 1.
  destruct (cfgs !! i) as [c|] eqn:E.
  - rewrite IH by lia. rewrite (drop_S _ _ _ E). reflexivity.
  - apply lookup_ge_None in E. lia.
Qed.

(** The summing loop reads and leaves everything as it was. *)
Lemma for_from_sum (k : nat) : forall i acc (m : Mach Group.t),
  (i + k <= length (Group.items (fol m)))%nat ->
  for_from i k group_sum_item acc m =
  Some (fold_left
          (fun a it =>
             (fadd (fst a) (angle (motor (env m) (GroupItem.ctrl it))),
              fadd (snd a) (velocity (motor (env m) (GroupItem.ctrl it)))))
          (take k (drop i (Group.items (fol m)))) acc,
        m).
Proof.
  induction k as [|k IH]; intros i acc m Hlen.
  - rewrite take_0. reflexivity.
  - destruct (Group.items (fol m) !! i) as [it|] eqn:E;
      [|apply lookup_ge_None in E; lia].
    cbn [for_from]. unfold cbind at 1, group_sum_item, cbind at 1.
    rewrite (item_at_run _ _ _ E). cbv [cbind MotorCtrl_GetAngle
      MotorCtrl_GetVelocity read_env cret]. cbn [fol env].
    change (for_from (S i) k group_sum_item ?a m) with
      (for_from (S i) k group_sum_item a m).
    rewrite IH by lia. rewrite (drop_S _ _ _ E). reflexivity.
Qed.

Lemma fold_sum_fst (w : World) (l : list GroupItem.t) : forall a b,
  fst (fold_left
         (fun a it =>
            (fadd (fst a) (angle (motor w (GroupItem.ctrl it))),
             fadd (snd a) (velocity (motor w (GroupItem.ctrl it)))))
         l (a, b)) =
  fold_left fadd ((fun it => angle (motor w (GroupItem.ctrl it))) <$> l) a.
Proof. induction l as [|it l IH]; intros a b; [reflexivity|]. apply IH. Qed.

Lemma fold_sum_snd (w : World) (l : list GroupItem.t) : forall a b,
  snd (fold_left
         (fun a it =>
            (fadd (fst a) (angle (motor w (GroupItem.ctrl it))),
             fadd (snd a) (velocity (motor w (GroupItem.ctrl it)))))
         l (a, b)) =
  fold_left fadd ((fun it => velocity (motor w (GroupItem.ctrl it))) <$> l) b.
Proof. induction l as [|it l IH]; intros a b; [reflexivity|]. apply IH. Qed.

(** The start state of the group is the pair of the two means. *)
Lemma group_start_state_run (m : Mach Group.t) :
  let n := Group.item_count (fol m) in
  (n <= length (Group.items (fol m)))%nat ->
  group_start_state m =
  Some ((arithmetic_mean (positions (env m) n (Group.items (fol m))),
         arithmetic_mean (velocities (env m) n (Group.items (fol m)))),
        m).
Proof.
  intros n Hn. unfold group_start_state, for_loop.
  unfold cbind at 1, get_fol. unfold cbind at 1.
  rewrite for_from_sum by (cbn; exact Hn). cbv [cret]. rewrite drop_0.
  rewrite fold_sum_fst, fold_sum_snd.
  unfold arithmetic_mean, positions, velocities.
  rewrite !length_fmap, !length_take_le by exact Hn. reflexivity.
Qed.

Lemma group_s_curve_init_run (c : SCurve_t) (running : bool) (target : float)
  (m : Mach Group.t) :
  let n := Group.item_count (fol m) in
  (n <= length (Group.items (fol m)))%nat ->
  group_s_curve_init c running target m =
  Some (SCurve_Init c
          (arithmetic_mean (positions (env m) n (Group.items (fol m))))
          target
          (arithmetic_mean (velocities (env m) n (Group.items (fol m))))
          (if running then SCurve_CalcA (Group.s (fol m)) (Group.now (fol m))
           else fzero)
          (Group.v_max (fol m)) (Group.a_max (fol m)) (Group.j_max (fol m)),
        m).
Proof.
  intros n Hn. unfold group_s_curve_init, cbind at 1.
  rewrite group_start_state_run by exact Hn. reflexivity.
Qed.

End Sweeps.

(** ** The group operations as functions of follower and world *)

Section GroupFacts.
Context `{SCurveLib} `{PDLib}.

Lemma group_stop_run (m : Mach Group.t) :
  let n := Group.item_count (fol m) in
  let l := Group.items (fol m) in
  (n <= length l)%nat ->
  SCurveTraj_Group_Stop m =
  Some (tt, {| fol := Group.set_items (cleared n l)
                        (Group.set_running false (fol m));
               env := send_all (fun _ => fzero) (take n l) (env m) |}).
Proof.
  intros n l Hn. unfold SCurveTraj_Group_Stop. run_cmd.
  rewrite (for_loop_sweep _ stop_step group_stop_item_step) by (cbn; exact Hn).
  cbn [fol env]. rewrite sweep_stop. reflexivity.
Qed.

Lemma group_reset_all_run (m : Mach Group.t) :
  let n := Group.item_count (fol m) in
  let l := Group.items (fol m) in
  (n <= length l)%nat ->
  SCurveTraj_Group_ResetAll m =
  Some (tt, {| fol := Group.set_items (cleared n l)
                        (Group.set_s (SCurve_Reset (Group.s (fol m)))
                           (Group.set_running false (fol m)));
               env := rehome_all (take n l) (env m) |}).
Proof.
  intros n l Hn. unfold SCurveTraj_Group_ResetAll. run_cmd.
  rewrite (for_loop_sweep _ reset_step group_reset_item_step) by (cbn; exact Hn).
  cbn [fol env]. rewrite sweep_reset. reflexivity.
Qed.

Lemma group_update_run (m : Mach Group.t) :
  let f := fol m in
  let n := Group.item_count f in
  let l := Group.items f in
  let now := fadd (Group.now f) (Group.update_interval f) in
  let ff := SCurve_CalcV (Group.s f) now in
  let target := SCurve_CalcX (Group.s f) now in
  (n <= length l)%nat ->
  SCurveTraj_Group_Update m =
  Some (tt,
        if Group.running f
        then {| fol := Group.set_items (corrected_items target (env m) n l)
                         (Group.set_now now f);
                env := send_all (command ff target (env m)) (take n l)
                         (env m) |}
        else m).
Proof.
  intros f n l now ff target Hn. unfold SCurveTraj_Group_Update. run_cmd.
  fold f. destruct (Group.running f); [|reflexivity]. cbn [negb].
  rewrite (for_loop_sweep _ (update_step _ _) (group_update_item_step _ _))
    by (cbn; exact Hn).
  cbn [fol env].
  rewrite (sweep_update _ _ (env m)) by reflexivity. reflexivity.
Qed.

Lemma group_init_run (config : SCurveTrajFollower_GroupConfig_t)
  (m : Mach Group.t) :
  let n := GroupConfig.item_count config in
  (n <= length (GroupConfig.items config))%nat ->
  (n <= length (GroupConfig.item_configs config))%nat ->
  SCurveTraj_Group_Init config m =
  Some (tt,
        if feqb (GroupConfig.update_interval config) fzero then m
        else {| fol :=
                  {| Group.running := false;
                     Group.update_interval :=
                       GroupConfig.update_interval config;
                     Group.s := Group.s (fol m);
                     Group.v_max := GroupConfig.v_max config;
                     Group.a_max := GroupConfig.a_max config;
                     Group.j_max := GroupConfig.j_max config;
                     Group.items :=
                       initialised (GroupConfig.item_configs config) n
                         (GroupConfig.items config);
                     Group.item_count := n;
                     Group.now := fzero |};
                env := env m |}).
Proof.
  intros n Hn Hc. unfold SCurveTraj_Group_Init.
  destruct (feqb (GroupConfig.update_interval config) fzero);
    [reflexivity|].
  run_cmd.
  rewrite (for_loop_sweep _ (init_step _) (group_init_item_step config))
    by (cbn; exact Hn).
  cbn [fol env Group.items Group.set_items Group.set_item_count
       Group.item_count].
  rewrite sweep_init by (rewrite length_take_le; cbn; [exact Hc|exact Hn]).
  rewrite drop_0, length_take_le by exact Hn. reflexivity.
Qed.

Lemma group_set_target_run (target : float) (m : Mach Group.t) :
  let f := fol m in
  let n := Group.item_count f in
  let l := Group.items f in
  let rs := SCurve_Init (Group.s f)
              (arithmetic_mean (positions (env m) n l))
              target
              (arithmetic_mean (velocities (env m) n l))
              (if Group.running f
               then SCurve_CalcA (Group.s f) (Group.now f) else fzero)
              (Group.v_max f) (Group.a_max f) (Group.j_max f) in
  let f1 := Group.set_now fzero (Group.set_s (snd rs) f) in
  (n <= length l)%nat ->
  SCurveTraj_Group_SetTarget target m =
  Some (fst rs,
        if is_success (fst rs)
        then {| fol := Group.set_running true f1; env := env m |}
        else {| fol := Group.set_items (cleared n l)
                         (Group.set_running false f1);
                env := send_all (fun _ => fzero) (take n l) (env m) |}).
Proof.
  intros f n l rs f1 Hn. unfold SCurveTraj_Group_SetTarget. run_cmd.
  rewrite group_s_curve_init_run by (cbn; exact Hn).
  cbn [fol env fst snd Group.set_running Group.s Group.now Group.v_max
       Group.a_max Group.j_max Group.items Group.item_count].
  fold f n l. fold rs.
  destruct (is_success (fst rs)) eqn:E; [reflexivity|].
  rewrite group_stop_run by (cbn; exact Hn). reflexivity.
Qed.

Lemma group_estimate_run (temps : SCurve_t) (target : float)
  (m : Mach Group.t) :
  let f := fol m in
  let n := Group.item_count f in
  let l := Group.items f in
  let rs := SCurve_Init temps
              (arithmetic_mean (positions (env m) n l))
              target
              (arithmetic_mean (velocities (env m) n l))
              (if Group.running f
               then SCurve_CalcA (Group.s f) (Group.now f) else fzero)
              (Group.v_max f) (Group.a_max f) (Group.j_max f) in
  (n <= length l)%nat ->
  SCurveTraj_Group_EstimateDuration temps target m =
  Some (if is_success (fst rs) then total_time (snd rs) else fminus1, m).
Proof.
  intros f n l rs Hn. unfold SCurveTraj_Group_EstimateDuration. run_cmd.
  rewrite group_s_curve_init_run by exact Hn.
  fold f n l. fold rs. cbn [fst snd].
  destruct (is_success (fst rs)); reflexivity.
Qed.

End GroupFacts.

(** ** Binary32: rounding and order *)

Lemma digits2_pos_bounds (p : positive) :
  2 ^ (Zpos (digits2_pos p) - 1) <= Zpos p < 2 ^ Zpos (digits2_pos p).
Proof.
  induction p as [p IH|p IH|]; cbn [digits2_pos].
  - rewrite Pos2Z.inj_succ.
    replace (Z.succ (Zpos (digits2_pos p)) - 1) with (Z.succ (Zpos (digits2_pos p) - 1)) by lia.
    rewrite !Z.pow_succ_r by lia. lia.
  - rewrite Pos2Z.inj_succ.
    replace (Z.succ (Zpos (digits2_pos p)) - 1) with (Z.succ (Zpos (digits2_pos p) - 1)) by lia.
    rewrite !Z.pow_succ_r by lia. lia.
  - cbn. lia.
Qed.

Lemma digits2_pos_unique (p : positive) (d : Z) :
  2 ^ (d - 1) <= Zpos p < 2 ^ d -> Zpos (digits2_pos p) = d.
Proof.
  intros [Hlo Hhi]. pose proof (digits2_pos_bounds p) as [Blo Bhi].
  assert (0 < d) as Hd.
  { destruct (Z_lt_le_dec 0 d) as [|Hle]; [assumption|].
    assert (2 ^ d <= 2 ^ 0) by (destruct (Z_lt_le_dec d 0); [rewrite Z.pow_neg_r by lia; lia | apply Z.pow_le_mono_r; lia]).
    change (2 ^ 0) with 1 in *. lia. }
  destruct (Z.lt_trichotomy (Zpos (digits2_pos p)) d) as [Hlt|[Heq|Hgt]];
    [|exact Heq|].
  - assert (2 ^ Zpos (digits2_pos p) <= 2 ^ (d - 1))
      by (apply Z.pow_le_mono_r; lia). lia.
  - assert (2 ^ d <= 2 ^ (Zpos (digits2_pos p) - 1))
      by (apply Z.pow_le_mono_r; lia). lia.
Qed.

(** ** Shifting right *)

Lemma iter_pos_nat {A} (f : A -> A) (p : positive) : forall x,
  SpecFloat.iter_pos f p x = Nat.iter (Pos.to_nat p) f x.
Proof.
  induction p as [p IH|p IH|]; intros x; cbn [SpecFloat.iter_pos].
  - rewrite !IH. rewrite Pos2Nat.inj_xI.
    replace (S (2 * Pos.to_nat p)) with (Pos.to_nat p + (Pos.to_nat p + 1))%nat by lia.
    rewrite !Nat.iter_add. reflexivity.
  - rewrite !IH. rewrite Pos2Nat.inj_xO.
    replace (2 * Pos.to_nat p)%nat with (Pos.to_nat p + Pos.to_nat p)%nat by lia.
    rewrite Nat.iter_add. reflexivity.
  - reflexivity.
Qed.

Lemma shr_1_m mrs : 0 <= shr_m mrs -> shr_m (shr_1 mrs) = shr_m mrs / 2.
Proof.
  destruct mrs as [m r s]; cbn [shr_m]. intros Hm.
  destruct m as [|[p|p|]|p]; cbn [shr_1 shr_m]; try lia.
  all: try reflexivity.
  - change (Z.pos p~1) with (2 * Z.pos p + 1).
    apply Z.div_unique with 1; lia.
  - change (Z.pos p~0) with (2 * Z.pos p).
    apply Z.div_unique with 0; lia.
Qed.

Lemma shr_1_flags mrs :
  0 <= shr_m mrs -> shr_r mrs = false -> shr_s mrs = false ->
  shr_m mrs mod 2 = 0 ->
  shr_r (shr_1 mrs) = false /\ shr_s (shr_1 mrs) = false.
Proof.
  destruct mrs as [m r s]; cbn [shr_m shr_r shr_s]. intros Hm -> -> Hev.
  destruct m as [|[p|p|]|p]; cbn [shr_1 shr_r shr_s orb]; try lia; auto.
  - rewrite Pos2Z.inj_xI in Hev.
    rewrite Z.add_comm, Z.mul_comm, Z.mod_add in Hev by lia. discriminate.
  - discriminate.
Qed.

Lemma shr_iter (n : nat) mrs :
  0 <= shr_m mrs ->
  shr_m (Nat.iter n shr_1 mrs) = shr_m mrs / 2 ^ Z.of_nat n /\
  (shr_r mrs = false -> shr_s mrs = false ->
   shr_m mrs mod 2 ^ Z.of_nat n = 0 ->
   shr_r (Nat.iter n shr_1 mrs) = false /\
   shr_s (Nat.iter n shr_1 mrs) = false).
Proof.
  intros Hm. induction n as [|n [IHm IHf]].
  - cbn. rewrite Z.div_1_r. auto.
  - rewrite !Nat.iter_succ, Nat2Z.inj_succ, Z.pow_succ_r by lia.
    assert (0 < 2 ^ Z.of_nat n) as Hp by (apply Z.pow_pos_nonneg; lia).
    assert (0 <= shr_m (Nat.iter n shr_1 mrs)) as Hn
      by (rewrite IHm; apply Z.div_pos; lia).
    split.
    + rewrite shr_1_m by exact Hn. rewrite IHm.
      rewrite Z.div_div by lia. f_equal. lia.
    + intros Hr Hs Hmod.
      assert (shr_m mrs mod 2 ^ Z.of_nat n = 0 /\
              (shr_m mrs / 2 ^ Z.of_nat n) mod 2 = 0) as [Hmodn Hev].
      { rewrite Z.mul_comm in Hmod.
        rewrite Z.rem_mul_r in Hmod by lia.
        pose proof (Z.mod_pos_bound (shr_m mrs) (2 ^ Z.of_nat n) Hp).
        pose proof (Z.mod_pos_bound (shr_m mrs / 2 ^ Z.of_nat n) 2).
        nia. }
      destruct (IHf Hr Hs Hmodn) as [Hr' Hs'].
      apply shr_1_flags; auto. rewrite IHm. exact Hev.
Qed.

(** [shr] from an exact record: the mantissa is divided by 2^n, the
    exponent grows by n, and nothing is flagged when the division is
    exact. *)
Lemma shr_exact (m e n : Z) :
  0 <= m -> 0 <= n ->
  let '(mrs, e') := shr (Build_shr_record m false false) e n in
  e' = e + n /\ shr_m mrs = m / 2 ^ n /\
  (m mod 2 ^ n = 0 -> loc_of_shr_record mrs = loc_Exact).
Proof.
  intros Hm Hn. unfold shr. destruct n as [|p|p]; try lia.
  - cbn [shr_m]. rewrite Z.div_1_r. repeat split; lia.
  - rewrite iter_pos_nat.
    destruct (shr_iter (Pos.to_nat p) (Build_shr_record m false false) Hm)
      as [Em Ef].
    rewrite positive_nat_Z in *. cbn [shr_m shr_r shr_s] in *.
    repeat split; auto.
    intros Hmod. destruct (Ef eq_refl eq_refl Hmod) as [Hr Hs].
    destruct (Nat.iter _ _ _) as [m' r' s']. cbn in *. subst. reflexivity.
Qed.

Lemma round_nearest_even_range m l :
  round_nearest_even m l = m \/ round_nearest_even m l = m + 1.
Proof.
  destruct l as [|[| |]]; cbn; auto. destruct (Z.even m); auto.
Qed.

(** ** Rounding *)

Ltac fexp_lia := unfold canonical, fexp, emin, prec, emax in *; lia.

Lemma pos_iter_xO (mx k : positive) :
  Zpos (Pos.iter xO mx k) = Zpos mx * 2 ^ Zpos k.
Proof.
  induction k as [|k IH] using Pos.peano_ind.
  - cbn [Pos.iter]. rewrite Pos2Z.inj_xO. change (2 ^ 1) with 2. lia.
  - rewrite Pos.iter_succ, Pos2Z.inj_succ, Z.pow_succ_r by lia.
    rewrite Pos2Z.inj_xO, IH. lia.
Qed.

Lemma shl_align_spec (mx : positive) (ex e' : Z) :
  e' <= ex ->
  snd (shl_align mx ex e') = e' /\
  Zpos (fst (shl_align mx ex e')) = Zpos mx * 2 ^ (ex - e').
Proof.
  intros Hle. unfold shl_align.
  destruct (e' - ex) as [|k|k] eqn:E; cbn [fst snd].
  - replace (ex - e') with 0 by lia. split; lia.
  - lia.
  - replace (ex - e') with (Zpos k) by lia. split; [reflexivity|].
    apply pos_iter_xO.
Qed.

Lemma digits2_pos_shift (mx mz : positive) (k : Z) :
  0 <= k -> Zpos mz = Zpos mx * 2 ^ k ->
  Zpos (digits2_pos mz) = Zpos (digits2_pos mx) + k.
Proof.
  intros Hk E. apply digits2_pos_unique. rewrite E.
  pose proof (digits2_pos_bounds mx) as [Blo Bhi].
  assert (0 < 2 ^ k) by (apply Z.pow_pos_nonneg; lia).
  replace (Zpos (digits2_pos mx) + k - 1) with (Zpos (digits2_pos mx) - 1 + k) by lia.
  rewrite !Z.pow_add_r by lia. nia.
Qed.

(** A mantissa that is canonical at its exponent goes through unchanged,
    up to the overflow test. *)
Lemma binary_round_aux_canonical (s : bool) (mz : positive) (e : Z) :
  canonical mz e ->
  binary_round_aux prec emax s (Zpos mz) e loc_Exact =
  if e <=? emax - prec then S754_finite s mz e else S754_infinity s.
Proof.
  intros Hc. unfold canonical in Hc.
  unfold binary_round_aux, shr_fexp. cbn [Zdigits2 shr_record_of_loc].
  rewrite Hc, Z.sub_diag. cbn [shr shr_m loc_of_shr_record round_nearest_even
    Zdigits2 shr_record_of_loc].
  rewrite Hc, Z.sub_diag. reflexivity.
Qed.

(** A mantissa of more than 24 digits is cut to 24 digits and rounded; a
    carry out of the 24 digits moves the exponent up by one. *)
Lemma binary_round_aux_long (s : bool) (mx : positive) (ex : Z) :
  let d := Zpos (digits2_pos mx) in
  let n := d - prec in
  let m1 := Zpos mx / 2 ^ n in
  emin prec emax <= ex -> prec < d ->
  exists (m : positive) (e : Z) (m2 : Z),
    binary_round_aux prec emax s (Zpos mx) ex loc_Exact =
      (if e <=? emax - prec then S754_finite s m e else S754_infinity s) /\
    canonical m e /\
    (m2 = m1 \/ (m2 = m1 + 1 /\ Zpos mx mod 2 ^ n <> 0)) /\
    2 ^ (prec - 1) <= m1 /\
    ex + n <= e /\
    val (Zpos m) e = val m2 (ex + n).
Proof.
  intros d n m1 Hex Hd.
  pose proof (digits2_pos_bounds mx) as [Blo Bhi]. fold d in Blo, Bhi.
  assert (0 < n) as Hn by (unfold n; lia).
  assert (0 < 2 ^ n) as Hpn by (apply Z.pow_pos_nonneg; lia).
  assert (2 ^ (prec - 1) <= m1 < 2 ^ prec) as [Hlo Hhi].
  { unfold m1. split.
    - apply Z.div_le_lower_bound; [lia|].
      rewrite <- Z.pow_add_r by (unfold prec; lia).
      replace (n + (prec - 1)) with (d - 1) by (unfold n; lia). exact Blo.
    - apply Z.div_lt_upper_bound; [lia|].
      rewrite <- Z.pow_add_r by (unfold prec; lia).
      replace (n + prec) with d by (unfold n; lia). exact Bhi. }
  unfold binary_round_aux, shr_fexp at 1. cbn [Zdigits2 shr_record_of_loc].
  fold d.
  replace (fexp prec emax (d + ex) - ex) with n by (unfold n; fexp_lia).
  pose proof (shr_exact (Zpos mx) ex n ltac:(lia) ltac:(lia)) as Hshr.
  destruct (shr {| shr_m := Zpos mx; shr_r := false; shr_s := false |} ex n)
    as [mrs e'].
  destruct Hshr as (-> & Hm & Hexact). fold m1 in Hm.
  set (m2 := round_nearest_even (shr_m mrs) (loc_of_shr_record mrs)).
  assert (m2 = m1 \/ (m2 = m1 + 1 /\ Zpos mx mod 2 ^ n <> 0)) as Hm2.
  { unfold m2. rewrite Hm.
    destruct (Z.eq_dec (Zpos mx mod 2 ^ n) 0) as [E|Hne].
    - rewrite (Hexact E). left. reflexivity.
    - destruct (round_nearest_even_range m1 (loc_of_shr_record mrs)); auto. }
  clearbody m2. clear Hexact Hm mrs.
  assert (0 < m2) as Hpos2 by (unfold prec in *; lia).
  destruct m2 as [|p2|p2]; try lia.
  destruct (Z_lt_le_dec (Zpos p2) (2 ^ prec)) as [Hsmall|Hbig].
  - (* no carry *)
    assert (Zpos (digits2_pos p2) = prec) as Hdig
      by (apply digits2_pos_unique; lia).
    unfold shr_fexp. cbn [Zdigits2 shr_record_of_loc]. rewrite Hdig.
    replace (fexp prec emax (prec + (ex + n)) - (ex + n)) with 0 by fexp_lia.
    cbn [shr shr_m].
    exists p2, (ex + n), (Zpos p2). repeat split; auto; try lia.
    unfold canonical. rewrite Hdig. fexp_lia.
  - (* carry: the rounded mantissa is 2^24 *)
    assert (Zpos p2 = 2 ^ prec) as Ep2 by lia.
    assert (Zpos (digits2_pos p2) = prec + 1) as Hdig.
    { apply digits2_pos_unique. rewrite Ep2.
      replace (prec + 1 - 1) with prec by lia.
      split; [lia|]. apply Z.pow_lt_mono_r; unfold prec; lia. }
    unfold shr_fexp. cbn [Zdigits2 shr_record_of_loc]. rewrite Hdig.
    replace (fexp prec emax (prec + 1 + (ex + n)) - (ex + n)) with 1
      by fexp_lia.
    pose proof (shr_exact (Zpos p2) (ex + n) 1 ltac:(lia) ltac:(lia)) as Hshr.
    destruct (shr {| shr_m := Zpos p2; shr_r := false; shr_s := false |}
                (ex + n) 1) as [mrs e''].
    destruct Hshr as (-> & Hm & _).
    rewrite Ep2 in Hm. change (2 ^ prec / 2 ^ 1) with (2 ^ (prec - 1)) in Hm.
    rewrite Hm. change (2 ^ (prec - 1)) with (Zpos 8388608).
    exists 8388608%positive, (ex + n + 1), (Zpos p2).
    repeat split; auto; try lia.
    + unfold canonical. change (Zpos (digits2_pos 8388608)) with 24. fexp_lia.
    + unfold val. rewrite Ep2.
      replace (ex + n + 1 - emin prec emax)
        with (Z.succ (ex + n - emin prec emax)) by lia.
      rewrite Z.pow_succ_r by fexp_lia. change (2 ^ prec) with (2 * 8388608).
      lia.
Qed.

(** ** Values and the order of canonical floats *)

Lemma canonical_emin (m : positive) (e : Z) :
  canonical m e -> emin prec emax <= e.
Proof. fexp_lia. Qed.

Lemma canonical_digits (m : positive) (e : Z) :
  canonical m e -> Zpos m < 2 ^ prec.
Proof.
  intros Hc. pose proof (digits2_pos_bounds m) as [_ Bhi].
  assert (Zpos (digits2_pos m) <= prec) by fexp_lia.
  assert (2 ^ Zpos (digits2_pos m) <= 2 ^ prec)
    by (apply Z.pow_le_mono_r; lia).
  lia.
Qed.

Lemma canonical_normal (m : positive) (e : Z) :
  canonical m e -> emin prec emax < e -> 2 ^ (prec - 1) <= Zpos m.
Proof.
  intros Hc He. pose proof (digits2_pos_bounds m) as [Blo _].
  assert (Zpos (digits2_pos m) = prec) as E by fexp_lia.
  rewrite E in Blo. exact Blo.
Qed.

Lemma val_pos (m e : Z) : 0 < m -> emin prec emax <= e -> 0 < val m e.
Proof.
  intros Hm He. unfold val.
  assert (0 < 2 ^ (e - emin prec emax)) by (apply Z.pow_pos_nonneg; lia).
  nia.
Qed.

Lemma val_shift (m e k : Z) :
  0 <= k -> emin prec emax <= e -> val m (e + k) = val (m * 2 ^ k) e.
Proof.
  intros Hk He. unfold val.
  replace (e + k - emin prec emax) with (k + (e - emin prec emax)) by lia.
  rewrite Z.pow_add_r by lia. lia.
Qed.

(** Below the exponent [e'], every canonical value is smaller than every
    normal value at [e']. *)
Lemma val_lt_of_exp_lt (m : positive) (e : Z) (m' e' : Z) :
  canonical m e -> e < e' -> 2 ^ (prec - 1) <= m' ->
  val (Zpos m) e < val m' e'.
Proof.
  intros Hc Hlt Hm'. pose proof (canonical_emin _ _ Hc) as He.
  pose proof (canonical_digits _ _ Hc) as Hd.
  replace e' with (e + (e' - e)) by lia.
  rewrite val_shift by lia. unfold val.
  assert (0 < 2 ^ (e - emin prec emax)) by (apply Z.pow_pos_nonneg; lia).
  assert (2 ^ 1 <= 2 ^ (e' - e)) by (apply Z.pow_le_mono_r; lia).
  change (2 ^ 1) with 2 in *. change (2 ^ prec) with (2 * 2 ^ (prec - 1)) in Hd.
  assert (0 < 2 ^ (prec - 1)) by (apply Z.pow_pos_nonneg; unfold prec; lia).
  assert (Zpos m < m' * 2 ^ (e' - e)) by nia.
  apply Z.mul_lt_mono_pos_r; assumption.
Qed.

(** On canonical floats the order of the values is the order of the pairs
    (exponent, mantissa). *)
Lemma canonical_le (m1 m2 : positive) (e1 e2 : Z) :
  canonical m1 e1 -> canonical m2 e2 ->
  (val (Zpos m1) e1 <= val (Zpos m2) e2 <->
   e1 < e2 \/ (e1 = e2 /\ (m1 <= m2)%positive)).
Proof.
  intros H1 H2.
  pose proof (canonical_emin _ _ H1). pose proof (canonical_emin _ _ H2).
  destruct (Z.lt_trichotomy e1 e2) as [Hlt|[Heq|Hgt]].
  - split; [auto|]. intros _.
    apply Z.lt_le_incl, (val_lt_of_exp_lt m1 e1 (Zpos m2) e2); auto.
    apply (canonical_normal m2 e2); [exact H2 | lia].
  - subst e2. unfold val.
    assert (0 < 2 ^ (e1 - emin prec emax)) by (apply Z.pow_pos_nonneg; lia).
    split.
    + intros Hv. right. split; [reflexivity|].
      apply Pos2Z.pos_le_pos. nia.
    + intros [Hlt|[_ Hle]]; [lia|]. apply Pos2Z.pos_le_pos in Hle. nia.
  - split; [|lia]. intros Hv. exfalso.
    assert (val (Zpos m2) e2 < val (Zpos m1) e1); [|lia].
    apply (val_lt_of_exp_lt m2 e2 (Zpos m1) e1); auto.
    apply (canonical_normal m1 e1); [exact H1 | lia].
Qed.

(** What [binary_round] returns for an exponent not below [emin]: a
    canonical float, or infinity when its exponent is too large; no
    representable value lies strictly between the exact value and the
    result. *)
Lemma binary_round_spec (s : bool) (mx : positive) (ex : Z) :
  emin prec emax <= ex ->
  exists (m : positive) (e : Z),
    binary_round prec emax s mx ex =
      (if e <=? emax - prec then S754_finite s m e else S754_infinity s) /\
    canonical m e /\
    (forall (m' : positive) (e' : Z),
        canonical m' e' ->
        (val (Zpos m') e' <= val (Zpos mx) ex ->
         val (Zpos m') e' <= val (Zpos m) e) /\
        (val (Zpos mx) ex <= val (Zpos m') e' ->
         val (Zpos m) e <= val (Zpos m') e')).
Proof.
  intros Hex. unfold binary_round.
  set (d := Zpos (digits2_pos mx)).
  set (e1 := fexp prec emax (d + ex)).
  destruct (Z_le_gt_dec d prec) as [Hshort|Hlong].
  - (* at most 24 digits: exact *)
    assert (e1 <= ex) as Hle by (unfold e1; fexp_lia).
    destruct (shl_align_spec mx ex e1 Hle) as [Ee Em].
    destruct (shl_align mx ex e1) as [mz ez]. cbn [fst snd] in *. subst ez.
    assert (canonical mz e1) as Hc.
    { unfold canonical.
      rewrite (digits2_pos_shift mx mz (ex - e1)) by (auto; lia).
      fold d. replace (d + (ex - e1) + e1) with (d + ex) by lia.
      reflexivity. }
    rewrite binary_round_aux_canonical by exact Hc.
    exists mz, e1. split; [reflexivity|]. split; [exact Hc|].
    assert (val (Zpos mz) e1 = val (Zpos mx) ex) as Ev.
    { rewrite Em, <- val_shift by (unfold e1; fexp_lia).
      f_equal. lia. }
    intros m' e' _. rewrite Ev. split; auto.
  - (* more than 24 digits: cut and round *)
    assert (ex < e1) as Hlt by (unfold e1; fexp_lia).
    assert (shl_align mx ex e1 = (mx, ex)) as ->.
    { unfold shl_align. destruct (e1 - ex) eqn:E; try lia; reflexivity. }
    destruct (binary_round_aux_long s mx ex Hex ltac:(fold d; lia))
      as (m & e & m2 & Er & Hc & Hm2 & Hlo & He & Ev).
    fold d in Hm2, Hlo, Ev, He.
    set (n := d - prec) in *. set (m1 := Zpos mx / 2 ^ n) in *.
    exists m, e. split; [exact Er|]. split; [exact Hc|].
    assert (0 < n) as Hn by (unfold n; lia).
    assert (0 < 2 ^ n) as Hpn by (apply Z.pow_pos_nonneg; lia).
    pose proof (Z.div_mod (Zpos mx) (2 ^ n) ltac:(lia)) as Hdm.
    pose proof (Z.mod_pos_bound (Zpos mx) (2 ^ n) Hpn) as Hmod.
    fold m1 in Hdm.
    assert (0 < 2 ^ (ex - emin prec emax)) as HU
      by (apply Z.pow_pos_nonneg; lia).
    assert (val (Zpos mx) ex = Zpos mx * 2 ^ (ex - emin prec emax)) as EV
      by reflexivity.
    assert (forall k, val k (ex + n) = k * 2 ^ n * 2 ^ (ex - emin prec emax))
      as EK by (intros k; rewrite val_shift by lia; reflexivity).
    intros m' e' Hc'. rewrite Ev, EK, EV.
    destruct (Z_lt_le_dec e' (ex + n)) as [Hbelow|Habove].
    + (* the other float lies below the binade of the result *)
      pose proof (val_lt_of_exp_lt m' e' m1 (ex + n) Hc' Hbelow Hlo) as Hv.
      rewrite EK in Hv.
      split; intros; nia.
    + (* the other float is a multiple of the unit of the result *)
      replace e' with (ex + n + (e' - (ex + n))) by lia.
      rewrite val_shift by lia. rewrite EK.
      set (K := Zpos m' * 2 ^ (e' - (ex + n))).
      split; intros Hv.
      * assert (K * 2 ^ n <= Zpos mx)
          by (apply (Z.mul_le_mono_pos_r _ _ (2 ^ (ex - emin prec emax)));
              [lia | exact Hv]).
        assert (K < m1 + 1)
          by (apply (Z.mul_lt_mono_pos_r (2 ^ n)); lia).
        assert (K <= m2) by lia.
        apply Z.mul_le_mono_nonneg_r; [lia|].
        apply Z.mul_le_mono_nonneg_r; [lia|]. assumption.
      * assert (Zpos mx <= K * 2 ^ n)
          by (apply (Z.mul_le_mono_pos_r _ _ (2 ^ (ex - emin prec emax)));
              [lia | exact Hv]).
        assert (m1 <= K)
          by (apply (Z.mul_le_mono_pos_r _ _ (2 ^ n)); lia).
        assert (m2 <= K).
        { destruct Hm2 as [->|[-> Hne]]; [assumption|].
          assert (m1 <> K) by (intros ->; lia). lia. }
        apply Z.mul_le_mono_nonneg_r; [lia|].
        apply Z.mul_le_mono_nonneg_r; [lia|]. assumption.
Qed.

(** ** The order [SFleb] *)

Lemma SFleb_key (x y : float) :
  SFleb x y = true <->
  is_nan x = false /\ is_nan y = false /\ lex_le (key x) (key y).
Proof.
  unfold SFleb.
  destruct x as [sx|sx| |sx mx ex], y as [sy|sy| |sy my ey];
    try destruct sx; try destruct sy; cbn;
    try (split; [intros; repeat split; (discriminate || lia)
                | intros (_ & _ & Hk); (reflexivity || lia)]);
    try (split; [discriminate | intros (Hx & Hy & _); discriminate]).
  - destruct (Z.compare_spec ex ey) as [E|E|E].
    + subst. change (Pos.compare_cont Eq mx my) with (mx ?= my)%positive.
      destruct (Pos.compare_spec mx my) as [E'|E'|E']; cbn;
        (split; [intros; repeat split; (discriminate || lia)
                | intros (_ & _ & Hk); (reflexivity || lia)]).
    + split; [intros; repeat split; (discriminate || lia)
             | intros (_ & _ & Hk); (reflexivity || lia)].
    + split; [intros; repeat split; (discriminate || lia)
             | intros (_ & _ & Hk); (reflexivity || lia)].
  - destruct (Z.compare_spec ex ey) as [E|E|E].
    + subst. change (Pos.compare_cont Eq mx my) with (mx ?= my)%positive.
      destruct (Pos.compare_spec mx my) as [E'|E'|E']; cbn;
        (split; [intros; repeat split; (discriminate || lia)
                | intros (_ & _ & Hk); (reflexivity || lia)]).
    + split; [intros; repeat split; (discriminate || lia)
             | intros (_ & _ & Hk); (reflexivity || lia)].
    + split; [intros; repeat split; (discriminate || lia)
             | intros (_ & _ & Hk); (reflexivity || lia)].
Qed.

Lemma SFleb_trans (x y z : float) :
  SFleb x y = true -> SFleb y z = true -> SFleb x z = true.
Proof.
  rewrite !SFleb_key. intros (Hx & _ & Hxy) (_ & Hz & Hyz).
  repeat split; auto.
  destruct (key x) as [[a1 b1] c1], (key y) as [[a2 b2] c2],
    (key z) as [[a3 b3] c3]. cbn in *. lia.
Qed.

Lemma SFleb_refl (x : float) : is_nan x = false -> SFleb x x = true.
Proof.
  intros Hx. apply SFleb_key. repeat split; auto.
  destruct (key x) as [[a b] c]. cbn. lia.
Qed.

(** ** Adding a non-negative float *)

Lemma bounded_canonical (m : positive) (e : Z) :
  bounded prec emax m e = true <-> canonical m e /\ e <= emax - prec.
Proof.
  unfold bounded, canonical_mantissa, canonical.
  rewrite andb_true_iff, Z.eqb_eq, Z.leb_le. reflexivity.
Qed.

Lemma binary_round_valid (s : bool) (mx : positive) (ex : Z) :
  emin prec emax <= ex ->
  valid_binary prec emax (binary_round prec emax s mx ex) = true.
Proof.
  intros Hex.
  destruct (binary_round_spec s mx ex Hex) as (m & e & -> & Hc & _).
  destruct (Z.leb_spec e (emax - prec)); [|reflexivity].
  cbn [valid_binary]. apply bounded_canonical. auto.
Qed.

Lemma binary_round_sign (s : bool) (mx : positive) (ex : Z) :
  emin prec emax <= ex ->
  exists m e,
    binary_round prec emax s mx ex = S754_finite s m e \/
    binary_round prec emax s mx ex = S754_infinity s.
Proof.
  intros Hex.
  destruct (binary_round_spec s mx ex Hex) as (m & e & -> & _).
  exists m, e. destruct (e <=? emax - prec); auto.
Qed.

(** The sum of two finite floats, the second positive, is not below the
    first. *)
Lemma fadd_finite_pos (sx : bool) (mx my : positive) (ex ey : Z) :
  bounded prec emax mx ex = true ->
  bounded prec emax my ey = true ->
  let x := S754_finite sx mx ex in
  let y := S754_finite false my ey in
  SFleb x (fadd x y) = true /\ valid_binary prec emax (fadd x y) = true.
Proof.
  intros Hx Hy x y.
  apply bounded_canonical in Hx as [Hcx Hex], Hy as [Hcy Hey].
  pose proof (canonical_emin _ _ Hcx). pose proof (canonical_emin _ _ Hcy).
  unfold fadd, x, y, SFadd. set (ez := Z.min ex ey).
  assert (emin prec emax <= ez) as Hez by (unfold ez; lia).
  destruct (shl_align_spec mx ex ez ltac:(unfold ez; lia)) as [_ Ea].
  destruct (shl_align_spec my ey ez ltac:(unfold ez; lia)) as [_ Eb].
  set (a := fst (shl_align mx ex ez)) in *.
  set (b := fst (shl_align my ey ez)) in *.
  assert (val (Zpos a) ez = val (Zpos mx) ex) as Va.
  { rewrite Ea, <- val_shift by lia. f_equal. lia. }
  assert (0 < val (Zpos b) ez) as Vb by (apply val_pos; lia).
  assert (forall p q, val (p + q) ez = val p ez + val q ez) as Vadd
    by (intros; unfold val; lia).
  destruct sx; cbn [cond_Zopp].
  - (* x negative *)
    change (- Z.pos a) with (Z.neg a).
    assert (Z.neg a + Z.pos b = Z.pos b - Z.pos a) as ES by lia.
    destruct (Z.neg a + Z.pos b) as [|p|p] eqn:E; cbn [binary_normalize].
    + split; reflexivity.
    + split; [|apply binary_round_valid; exact Hez].
      destruct (binary_round_sign false p ez Hez) as (m & e & [-> | ->]);
        reflexivity.
    + destruct (binary_round_spec true p ez Hez) as (m & e & -> & Hc & Hr).
      destruct (Hr mx ex Hcx) as [_ Hup].
      assert (val (Zpos p) ez <= val (Zpos mx) ex) as Hle.
      { rewrite <- Va. replace (Zpos a) with (Zpos p + Zpos b) by lia.
        rewrite Vadd. lia. }
      apply Hup in Hle. apply canonical_le in Hle; [|assumption..].
      assert (e <= emax - prec) as Hfin by lia.
      apply Z.leb_le in Hfin. rewrite Hfin. split.
      * apply SFleb_key. cbn. repeat split; auto; lia.
      * cbn [valid_binary]. apply bounded_canonical.
        apply Z.leb_le in Hfin. auto.
  - (* x positive *)
    change (Z.pos a + Z.pos b) with (Z.pos (a + b)). cbn [binary_normalize].
    split; [|apply binary_round_valid; exact Hez].
    destruct (binary_round_spec false (a + b) ez Hez)
      as (m & e & -> & Hc & Hr).
    destruct (Z.leb_spec e (emax - prec)); [|reflexivity].
    destruct (Hr mx ex Hcx) as [Hlow _].
    assert (val (Zpos mx) ex <= val (Zpos (a + b)) ez) as Hle.
    { rewrite <- Va, Pos2Z.inj_add, Vadd. lia. }
    apply Hlow in Hle. apply canonical_le in Hle; [|assumption..].
    apply SFleb_key. cbn. repeat split; auto; lia.
Qed.

(** Adding a float that is zero or positive, and not infinite, to a float
    that is a number gives a float that is not below it, and a float of
    binary32 again. *)
Lemma fadd_nonneg (x y : float) :
  valid_binary prec emax x = true ->
  valid_binary prec emax y = true ->
  is_nan x = false ->
  SFleb (S754_zero false) y = true ->
  y <> S754_infinity false ->
  SFleb x (fadd x y) = true /\ valid_binary prec emax (fadd x y) = true.
Proof.
  intros Vx Vy Nx Hy Hinf.
  destruct y as [sy|sy| |sy my ey]; try discriminate.
  - destruct x as [sx|sx| |sx mx ex]; try discriminate.
    + destruct sx, sy; split; reflexivity.
    + destruct sx; split; reflexivity.
    + split; [|exact Vx]. apply SFleb_refl. reflexivity.
  - destruct sy; [discriminate | congruence].
  - destruct sy; [discriminate|].
    destruct x as [sx|sx| |sx mx ex]; try discriminate.
    + split; [reflexivity | exact Vy].
    + destruct sx; split; reflexivity.
    + apply fadd_finite_pos; assumption.
Qed.

(** * The claims *)

(** C1. [SCurveTraj_Axis_SetTarget] plans the new curve from the motor's
    measured position and measured velocity at the call; the start
    acceleration handed to the planner is the old curve's acceleration at
    the old elapsed time when the follower was running at the call, and
    zero otherwise.  The result code is the planner's, and the curve the
    follower holds afterwards is the planner's. *)
Theorem axis_set_target_start_state `{SCurveLib} `{PDLib}
  (target : float) (m : Mach Axis.t) :
  let f := fol m in
  let planned :=
    SCurve_Init (Axis.s f)
      (angle (motor (env m) (Axis.ctrl f)))
      target
      (velocity (motor (env m) (Axis.ctrl f)))
      (if Axis.running f then SCurve_CalcA (Axis.s f) (Axis.now f) else fzero)
      (Axis.v_max f) (Axis.a_max f) (Axis.j_max f) in
  exists m',
    SCurveTraj_Axis_SetTarget target m = Some (fst planned, m') /\
    Axis.s (fol m') = snd planned.
Proof.
  intros f planned. rewrite axis_set_target_run. fold f. fold planned.
  eexists. split; [reflexivity|].
  destruct (is_success (fst planned)); reflexivity.
Qed.

(** On the recording curve the start state can be read back: a running
    follower on motor 2 (at 200 degrees, turning at 20 degrees per second)
    whose curve has acceleration 7 is planned from exactly these values. *)
Example axis_set_target_reads_back :
  let c := {| Standin.c_x0 := fzero; Standin.c_xt := fzero;
              Standin.c_v0 := fzero; Standin.c_a0 := float_of_Z 7;
              Standin.c_v := fzero; Standin.c_total := fzero |} in
  let f := @Axis.set_s Standin.curve_lib Standin.pd_lib c
             (Standin.axis_on 2 true (float_of_Z 180) fzero) in
  match SCurveTraj_Axis_SetTarget (float_of_Z 90)
          {| fol := f; env := Standin.world0 |} with
  | Some (r, m') =>
      r = S_CURVE_SUCCESS /\
      Standin.c_x0 (Axis.s (fol m')) = float_of_Z 200 /\
      Standin.c_v0 (Axis.s (fol m')) = float_of_Z 20 /\
      Standin.c_a0 (Axis.s (fol m')) = float_of_Z 7 /\
      Standin.c_xt (Axis.s (fol m')) = float_of_Z 90
  | None => False
  end.
Proof. vm_compute. repeat split. Qed.





(** C3, as stated, fails: the elapsed time is also zeroed when no curve is
    accepted.  A running axis whose elapsed time is 5 is retargeted, the
    planner fails, and the elapsed time is zero afterwards; the same
    follower is re-initialised with a non-zero interval, no curve is
    planned at all, and the elapsed time is zero afterwards. *)
Lemma elapsed_zeroed_without_accepted_curve :
  Axis.now (fol Standin.fast_axis) = float_of_Z 5 /\
  match SCurveTraj_Axis_SetTarget (float_of_Z 90) Standin.fast_axis with
  | Some (r, m') => r = S_CURVE_FAILED /\ Axis.now (fol m') = fzero
  | None => False
  end /\
  match SCurveTraj_Axis_Init (Standin.axis_config Standin.tick)
          Standin.fast_axis with
  | Some (_, m') => Axis.now (fol m') = fzero
  | None => False
  end.
Proof. vm_compute. repeat split. Qed.

(** C3, amended.  What every operation leaves in the elapsed time:
    [SetTarget] leaves zero whether the planner succeeds or fails; [Init]
    with a non-zero interval leaves zero; [Update] of a running follower
    leaves the old value plus the interval; every other operation, and
    [Update] of a stopped follower and [Init] with a zero interval, leave
    the old value.  For the group this holds whenever the loops stay inside
    the arrays. *)
Theorem elapsed_time_after_operation `{SCurveLib} `{PDLib} :
  (forall (op : AxisOp) (m : Mach Axis.t),
      exists m',
        run_axis_op op m = Some (tt, m') /\
        Axis.now (fol m') = axis_now_after op (fol m))
  /\
  (forall (op : GroupOp) (m : Mach Group.t),
      group_op_in_bounds op (fol m) ->
      exists m',
        run_group_op op m = Some (tt, m') /\
        Group.now (fol m') = group_now_after op (fol m)).
Proof.
  split.
  - intros op m. destruct op; cbn [run_axis_op axis_now_after].
    + rewrite axis_init_run. eexists; split; [reflexivity|].
      destruct (feqb _ _); reflexivity.
    + rewrite axis_update_run. eexists; split; [reflexivity|].
      destruct (Axis.running (fol m)); reflexivity.
    + rewrite axis_stop_run. eexists; split; reflexivity.
    + rewrite axis_reset_all_run. eexists; split; reflexivity.
    + unfold cbind. rewrite axis_set_target_run. cbv zeta.
      eexists; split; [reflexivity|].
      destruct (is_success _); reflexivity.
    + unfold cbind. rewrite axis_estimate_run. cbv zeta.
      eexists; split; reflexivity.
  - intros op m Hb. destruct op; cbn [run_group_op group_now_after] in *.
    + destruct Hb as [Hi Hc].
      rewrite group_init_run by assumption. eexists; split; [reflexivity|].
      destruct (feqb _ _); reflexivity.
    + rewrite group_update_run by exact Hb. eexists; split; [reflexivity|].
      destruct (Group.running (fol m)); reflexivity.
    + rewrite group_stop_run by exact Hb. eexists; split; reflexivity.
    + rewrite group_reset_all_run by exact Hb. eexists; split; reflexivity.
    + unfold cbind. rewrite group_set_target_run by exact Hb. cbv zeta.
      eexists; split; [reflexivity|].
      destruct (is_success _); reflexivity.
    + unfold cbind. rewrite group_estimate_run by exact Hb. cbv zeta.
      eexists; split; reflexivity.
Qed.

(** The amended statement at [Stop] on a group of two cells. *)
Lemma elapsed_time_after_operation_witness :
  exists m',
    run_group_op GrStop Standin.desync_group = Some (tt, m') /\
    Group.now (fol m') = Group.now (fol Standin.desync_group).
Proof.
  destruct (@elapsed_time_after_operation Standin.curve_lib Standin.pd_lib)
    as [_ HG].
  apply (HG GrStop Standin.desync_group). cbn. lia.
Defined.


(** The mean of 1, 2 and 6 is 3. *)
Example arithmetic_mean_1_2_6 :
  arithmetic_mean [float_of_Z 1; float_of_Z 2; float_of_Z 6] = float_of_Z 3.
Proof. vm_compute. reflexivity. Qed.







(** C8. [SCurveTraj_Axis_Update] does nothing to a follower that is not
    running.  On a running follower it advances the elapsed time by one
    update interval, evaluates the feed-forward velocity and the target at
    the new elapsed time, runs the corrector on that target and on the
    measured position, and sends the motor feed-forward plus correction,
    converted by [x / 360 * 60] in binary32. *)
Theorem axis_update_tick `{SCurveLib} `{PDLib} (m : Mach Axis.t) :
  let f := fol m in
  (Axis.running f = false -> SCurveTraj_Axis_Update m = Some (tt, m))
  /\
  (Axis.running f = true ->
   let now := fadd (Axis.now f) (Axis.update_interval f) in
   let ff := SCurve_CalcV (Axis.s f) now in
   let target := SCurve_CalcX (Axis.s f) now in
   let p := PD_Calculate (set_fdb (angle (motor (env m) (Axis.ctrl f)))
                                  (set_ref target (Axis.pd f))) in
   let rpm := fmul (fdiv (fadd ff (output p))
                         (S754_finite false 11796480 (-15)))
                   (S754_finite false 15728640 (-18)) in
   exists m',
     SCurveTraj_Axis_Update m = Some (tt, m') /\
     Axis.now (fol m') = now /\
     Axis.pd (fol m') = p /\
     Axis.running (fol m') = true /\
     Axis.s (fol m') = Axis.s f /\
     sent (env m') = sent (env m) ++ [(Axis.ctrl f, rpm)] /\
     vel_ref (motor (env m') (Axis.ctrl f)) = rpm)
  /\
  S754_finite false 11796480 (-15) = float_of_Z 360
  /\
  S754_finite false 15728640 (-18) = float_of_Z 60.
Proof.
  intros f. split; [|split; [|split; reflexivity]].
  - intros Hrun. rewrite axis_update_run. fold f. rewrite Hrun.
    reflexivity.
  - intros Hrun now ff target p rpm.
    rewrite axis_update_run. fold f. rewrite Hrun.
    eexists. split; [reflexivity|]. cbn [fol env].
    repeat (split; [first [reflexivity | exact Hrun]|]).
    apply send_vel_ref_same.
Qed.

(** 360 degrees per second are 60 revolutions per minute. *)
Example DPS2RPM_360 : DPS2RPM (float_of_Z 360) = float_of_Z 60.
Proof. vm_compute. reflexivity. Qed.

(** The theorem at a running axis on motor 2 and at a stopped one. *)
Lemma axis_update_tick_witness :
  (exists m',
      SCurveTraj_Axis_Update
        {| fol := Standin.axis_on 2 true (float_of_Z 180) fzero;
           env := Standin.world0 |} = Some (tt, m') /\
      Axis.now (fol m') = Standin.tick /\
      sent (env m') = [(2%nat, S754_finite true 13981013 (-23))])
  /\
  SCurveTraj_Axis_Update
    {| fol := Standin.axis_on 2 false (float_of_Z 180) fzero;
       env := Standin.world0 |}
  = Some (tt, {| fol := Standin.axis_on 2 false (float_of_Z 180) fzero;
                 env := Standin.world0 |}).
Proof.
  split.
  - destruct (@axis_update_tick Standin.curve_lib Standin.pd_lib
                {| fol := Standin.axis_on 2 true (float_of_Z 180) fzero;
                   env := Standin.world0 |}) as (_ & T & _).
    destruct (T eq_refl) as (m' & E & Hnow & _ & _ & _ & Hsent & _).
    exists m'. split; [exact E|]. split; [exact Hnow | exact Hsent].
  - destruct (@axis_update_tick Standin.curve_lib Standin.pd_lib
                {| fol := Standin.axis_on 2 false (float_of_Z 180) fzero;
                   env := Standin.world0 |}) as (T & _).
    exact (T eq_refl).
Defined.

(** C9, as stated, fails in its first part: [Init] with a zero interval
    returns at once, so a follower that is running stays running. *)
Lemma init_zero_interval_keeps_running :
  feqb (AxisConfig.update_interval (Standin.axis_config fzero)) fzero = true /\
  Axis.running (fol Standin.fast_axis) = true /\
  match SCurveTraj_Axis_Init (Standin.axis_config fzero) Standin.fast_axis with
  | Some (_, m') => Axis.running (fol m') = true
  | None => False
  end.
Proof. vm_compute. repeat split. Qed.

(** C9, amended.  [Init] with an update interval equal to zero changes
    nothing: follower and world are as before, the running flag included.
    With any other interval the axis takes the corrector initialised from
    the configuration, the motor handle, the interval and the three limits;
    the group takes the array and the count of the configuration and, in
    each of the first [item_count] cells, the handle and the initialised
    corrector of the cell's configuration, then the interval and the
    limits; both end with elapsed time zero and the running flag false.
    The curve is left as it was. *)
Theorem init_effect `{SCurveLib} `{PDLib} :
  (forall (config : SCurveTrajFollower_AxisConfig_t) (m : Mach Axis.t),
      (feqb (AxisConfig.update_interval config) fzero = true ->
       SCurveTraj_Axis_Init config m = Some (tt, m))
      /\
      (feqb (AxisConfig.update_interval config) fzero = false ->
       SCurveTraj_Axis_Init config m =
       Some (tt,
             {| fol :=
                  {| Axis.running := false;
                     Axis.update_interval := AxisConfig.update_interval config;
                     Axis.s := Axis.s (fol m);
                     Axis.pd := PD_Init (Axis.pd (fol m))
                                  (AxisConfig.error_pd config);
                     Axis.ctrl := AxisConfig.motor_vel_ctrl config;
                     Axis.v_max := AxisConfig.v_max config;
                     Axis.a_max := AxisConfig.a_max config;
                     Axis.j_max := AxisConfig.j_max config;
                     Axis.now := fzero |};
                env := env m |})))
  /\
  (forall (config : SCurveTrajFollower_GroupConfig_t) (m : Mach Group.t),
      let n := GroupConfig.item_count config in
      (feqb (GroupConfig.update_interval config) fzero = true ->
       SCurveTraj_Group_Init config m = Some (tt, m))
      /\
      (feqb (GroupConfig.update_interval config) fzero = false ->
       (n <= length (GroupConfig.items config))%nat ->
       (n <= length (GroupConfig.item_configs config))%nat ->
       SCurveTraj_Group_Init config m =
       Some (tt,
             {| fol :=
                  {| Group.running := false;
                     Group.update_interval :=
                       GroupConfig.update_interval config;
                     Group.s := Group.s (fol m);
                     Group.v_max := GroupConfig.v_max config;
                     Group.a_max := GroupConfig.a_max config;
                     Group.j_max := GroupConfig.j_max config;
                     Group.items :=
                       zip_with init_item
                         (take n (GroupConfig.item_configs config))
                         (take n (GroupConfig.items config))
                       ++ drop n (GroupConfig.items config);
                     Group.item_count := n;
                     Group.now := fzero |};
                env := env m |}))).
Proof.
  split.
  - intros config m. split; intros E; rewrite axis_init_run, E; reflexivity.
  - intros config m n. split.
    + intros E. unfold SCurveTraj_Group_Init. rewrite E. reflexivity.
    + intros E Hi Hc. rewrite group_init_run by assumption.
      rewrite E. reflexivity.
Qed.

(** The amended statement at an axis and at a group: a zero interval
    leaves the running follower as it is, a one-tick interval
    re-initialises it. *)
Lemma init_effect_witness :
  SCurveTraj_Axis_Init (Standin.axis_config fzero) Standin.fast_axis
  = Some (tt, Standin.fast_axis)
  /\
  match SCurveTraj_Axis_Init (Standin.axis_config Standin.tick)
          Standin.fast_axis with
  | Some (_, m') =>
      Axis.running (fol m') = false /\ Axis.now (fol m') = fzero /\
      Axis.ctrl (fol m') = 1%nat
  | None => False
  end
  /\
  SCurveTraj_Group_Init (Standin.group_config fzero) Standin.fast_group
  = Some (tt, Standin.fast_group)
  /\
  match SCurveTraj_Group_Init (Standin.group_config Standin.tick)
          Standin.fast_group with
  | Some (_, m') =>
      Group.running (fol m') = false /\ Group.now (fol m') = fzero /\
      GroupItem.ctrl <$> Group.items (fol m') = [3; 4]%nat
  | None => False
  end.
Proof.
  destruct (@init_effect Standin.curve_lib Standin.pd_lib) as [HA HG].
  destruct (HA (Standin.axis_config fzero) Standin.fast_axis) as [A0 _].
  destruct (HA (Standin.axis_config Standin.tick) Standin.fast_axis)
    as [_ A1].
  destruct (HG (Standin.group_config fzero) Standin.fast_group) as [G0 _].
  destruct (HG (Standin.group_config Standin.tick) Standin.fast_group)
    as [_ G1].
  split; [|split; [|split]].
  - apply A0. reflexivity.
  - rewrite A1 by reflexivity. repeat split.
  - apply G0. reflexivity.
  - rewrite G1 by (reflexivity || (cbn; lia)). repeat split.
Defined.

(** ** The finished check over ticks *)

Section Finished.
Context `{SCurveLib} `{PDLib}.

(** One more interval does not undo "elapsed >= total". *)
Lemma elapsed_still_over (total now ui : float) :
  valid now = true -> valid ui = true ->
  fgeb ui fzero = true -> ui <> S754_infinity false ->
  fgeb now total = true ->
  fgeb (fadd now ui) total = true /\ valid (fadd now ui) = true.
Proof.
  unfold fgeb, valid. intros Vn Vu Hu Hinf Hover.
  assert (is_nan now = false) as Nn by (apply SFleb_key in Hover; tauto).
  destruct (fadd_nonneg now ui Vn Vu Nn Hu Hinf) as [Hle Hv].
  split; [|exact Hv]. eapply SFleb_trans; eassumption.
Qed.

Lemma axis_finished_ticks (k : nat) : forall (m : Mach Axis.t),
  valid (Axis.now (fol m)) = true ->
  valid (Axis.update_interval (fol m)) = true ->
  fgeb (Axis.update_interval (fol m)) fzero = true ->
  Axis.update_interval (fol m) <> S754_infinity false ->
  SCurveTraj_isFinished (fol m) = true ->
  exists m',
    ticks SCurveTraj_Axis_Update k m = Some (tt, m') /\
    SCurveTraj_isFinished (fol m') = true.
Proof.
  induction k as [|k IH]; intros m Vn Vu Hu Hinf Hfin.
  - exists m. split; [reflexivity | exact Hfin].
  - cbn [ticks]. unfold cbind. rewrite axis_update_run. cbv zeta.
    unfold SCurveTraj_isFinished in Hfin. cbn [f_running f_now f_s
      Axis_Follower] in Hfin.
    apply andb_true_iff in Hfin as [Hrun Hover]. rewrite Hrun.
    destruct (elapsed_still_over _ _ _ Vn Vu Hu Hinf Hover) as [Hover' Vn'].
    apply IH; cbn [fol Axis.set_pd Axis.set_now Axis.now
                   Axis.update_interval]; auto.
    unfold SCurveTraj_isFinished. cbn. rewrite Hrun, Hover'. reflexivity.
Qed.

Lemma corrected_items_length target w n (l : list GroupItem.t) :
  length (corrected_items target w n l) = length l.
Proof.
  unfold corrected_items.
  rewrite length_app, length_fmap, length_take, length_drop. lia.
Qed.

Lemma group_finished_ticks (k : nat) : forall (m : Mach Group.t),
  (Group.item_count (fol m) <= length (Group.items (fol m)))%nat ->
  valid (Group.now (fol m)) = true ->
  valid (Group.update_interval (fol m)) = true ->
  fgeb (Group.update_interval (fol m)) fzero = true ->
  Group.update_interval (fol m) <> S754_infinity false ->
  SCurveTraj_isFinished (fol m) = true ->
  exists m',
    ticks SCurveTraj_Group_Update k m = Some (tt, m') /\
    SCurveTraj_isFinished (fol m') = true.
Proof.
  induction k as [|k IH]; intros m Hn Vn Vu Hu Hinf Hfin.
  - exists m. split; [reflexivity | exact Hfin].
  - cbn [ticks]. unfold cbind. rewrite group_update_run by exact Hn.
    unfold SCurveTraj_isFinished in Hfin. cbn [f_running f_now f_s
      Group_Follower] in Hfin.
    apply andb_true_iff in Hfin as [Hrun Hover]. rewrite Hrun.
    destruct (elapsed_still_over _ _ _ Vn Vu Hu Hinf Hover) as [Hover' Vn'].
    apply IH; cbn [fol Group.set_items Group.set_now Group.now
                   Group.update_interval Group.items Group.item_count];
      auto.
    + rewrite corrected_items_length. exact Hn.
    + unfold SCurveTraj_isFinished. cbn. rewrite Hrun, Hover'. reflexivity.
Qed.

End Finished.

(** C4, as stated, fails: [Update] can clear the finished check of a
    follower that keeps running.  [Init] refuses only an interval equal to
    zero, so it stores an interval of minus one tick.  An axis so
    initialised on motor 1 is sent to 100 degrees, where the motor stands:
    the planned duration is zero, the follower runs and the check is true.
    One [Update] later the elapsed time is minus one tick, the follower
    still runs and the check is false.  The same on a group initialised on
    motors 3 and 4 and sent to their mean position, 350 degrees. *)
Lemma update_clears_finished :
  match SCurveTraj_Axis_Init (Standin.axis_config (SFopp Standin.tick))
          Standin.fast_axis with
  | Some (_, m0) =>
      match SCurveTraj_Axis_SetTarget (float_of_Z 100) m0 with
      | Some (r, m1) =>
          r = S_CURVE_SUCCESS /\
          Axis.running (fol m1) = true /\
          Standin.axis_finished (fol m1) = true /\
          match SCurveTraj_Axis_Update m1 with
          | Some (_, m2) =>
              Axis.running (fol m2) = true /\
              Axis.s (fol m2) = Axis.s (fol m1) /\
              Axis.now (fol m2) = SFopp Standin.tick /\
              Standin.axis_finished (fol m2) = false
          | None => False
          end
      | None => False
      end
  | None => False
  end /\
  match SCurveTraj_Group_Init (Standin.group_config (SFopp Standin.tick))
          Standin.fast_group with
  | Some (_, m0) =>
      match SCurveTraj_Group_SetTarget (float_of_Z 350) m0 with
      | Some (r, m1) =>
          r = S_CURVE_SUCCESS /\
          Group.running (fol m1) = true /\
          Standin.group_finished (fol m1) = true /\
          match SCurveTraj_Group_Update m1 with
          | Some (_, m2) =>
              Group.running (fol m2) = true /\
              Group.s (fol m2) = Group.s (fol m1) /\
              Group.now (fol m2) = SFopp Standin.tick /\
              Standin.group_finished (fol m2) = false
          | None => False
          end
      | None => False
      end
  | None => False
  end.
Proof. vm_compute. repeat split. Qed.

(** C4, amended.  The finished check is true exactly when the follower is
    running and the elapsed time is at least the total duration of its
    curve.  Right after [Stop] it is false, with elapsed time and curve
    untouched, so also when the elapsed time is beyond the duration.
    [Update] does not clear it on a follower whose update interval is a
    non-negative finite number: once true there, it is true after any
    number of further ticks. *)
Theorem finished_check `{SCurveLib} `{PDLib} :
  (forall (F : Type) (FF : Follower F) (f : F),
      SCurveTraj_isFinished f = true <->
      f_running f = true /\ fgeb (f_now f) (total_time (f_s f)) = true)
  /\
  (forall m : Mach Axis.t,
      exists m',
        SCurveTraj_Axis_Stop m = Some (tt, m') /\
        SCurveTraj_isFinished (fol m') = false /\
        Axis.now (fol m') = Axis.now (fol m) /\
        Axis.s (fol m') = Axis.s (fol m))
  /\
  (forall m : Mach Group.t,
      (Group.item_count (fol m) <= length (Group.items (fol m)))%nat ->
      exists m',
        SCurveTraj_Group_Stop m = Some (tt, m') /\
        SCurveTraj_isFinished (fol m') = false /\
        Group.now (fol m') = Group.now (fol m) /\
        Group.s (fol m') = Group.s (fol m))
  /\
  (forall (k : nat) (m : Mach Axis.t),
      valid (Axis.now (fol m)) = true ->
      valid (Axis.update_interval (fol m)) = true ->
      fgeb (Axis.update_interval (fol m)) fzero = true ->
      Axis.update_interval (fol m) <> S754_infinity false ->
      SCurveTraj_isFinished (fol m) = true ->
      exists m',
        ticks SCurveTraj_Axis_Update k m = Some (tt, m') /\
        SCurveTraj_isFinished (fol m') = true)
  /\
  (forall (k : nat) (m : Mach Group.t),
      (Group.item_count (fol m) <= length (Group.items (fol m)))%nat ->
      valid (Group.now (fol m)) = true ->
      valid (Group.update_interval (fol m)) = true ->
      fgeb (Group.update_interval (fol m)) fzero = true ->
      Group.update_interval (fol m) <> S754_infinity false ->
      SCurveTraj_isFinished (fol m) = true ->
      exists m',
        ticks SCurveTraj_Group_Update k m = Some (tt, m') /\
        SCurveTraj_isFinished (fol m') = true).
Proof.
  split; [|split; [|split; [|split]]].
  - intros F FF f. unfold SCurveTraj_isFinished. apply andb_true_iff.
  - intros m. rewrite axis_stop_run. eexists. split; [reflexivity|].
    repeat split.
  - intros m Hn. rewrite group_stop_run by exact Hn.
    eexists. split; [reflexivity|]. repeat split.
  - intros k m. apply axis_finished_ticks.
  - intros k m. apply group_finished_ticks.
Qed.

(** The theorem at a running axis and a running group whose curves are
    over: the check is still true after three ticks, and false after a
    stop. *)
Lemma finished_check_witness :
  (exists m',
      ticks SCurveTraj_Axis_Update 3 Standin.done_axis = Some (tt, m') /\
      Standin.axis_finished (fol m') = true)
  /\
  (exists m',
      ticks SCurveTraj_Group_Update 3 Standin.done_group = Some (tt, m') /\
      Standin.group_finished (fol m') = true)
  /\
  (exists m',
      SCurveTraj_Group_Stop Standin.done_group = Some (tt, m') /\
      Standin.group_finished (fol m') = false).
Proof.
  destruct (@finished_check Standin.curve_lib Standin.pd_lib)
    as (_ & _ & HS & HA & HG).
  split; [|split].
  - apply (HA 3%nat Standin.done_axis);
      [reflexivity | reflexivity | reflexivity | discriminate | reflexivity].
  - apply (HG 3%nat Standin.done_group);
      [cbn; lia | reflexivity | reflexivity | reflexivity | discriminate
      | reflexivity].
  - destruct (HS Standin.done_group) as (m' & E & Hf & _); [cbn; lia|].
    exists m'. split; assumption.
Defined.

(** The condition on the interval is needed: with an update interval of
    minus one tick the elapsed time moves back below the duration and the
    check turns false. *)
Example backward_interval_unfinishes :
  Standin.axis_finished (fol Standin.backward_axis) = true /\
  match SCurveTraj_Axis_Update Standin.backward_axis with
  | Some (_, m') => Standin.axis_finished (fol m') = false
  | None => False
  end.
Proof. vm_compute. split; reflexivity. Qed.

(** C10. The start state of a group is the two sums divided by
    [(float) item_count], with no test of the count.  With at least one
    cell the divisor is not zero.  With no cell the divisor is zero, the
    sums are zero, and both quotients are 0/0: the planner is handed
    not-a-number as start position and start velocity. *)
Theorem group_mean_divides_by_count `{SCurveLib} `{PDLib} :
  (forall m : Mach Group.t,
      let n := Group.item_count (fol m) in
      let l := Group.items (fol m) in
      (n <= length l)%nat ->
      group_start_state m =
      Some ((fdiv (fold_left fadd (positions (env m) n l) fzero)
                  (float_of_size n),
             fdiv (fold_left fadd (velocities (env m) n l) fzero)
                  (float_of_size n)),
            m))
  /\
  (forall n : nat, (0 < n)%nat -> feqb (float_of_size n) fzero = false)
  /\
  (forall (c : SCurve_t) (running : bool) (target : float)
          (m : Mach Group.t),
      Group.item_count (fol m) = 0%nat ->
      float_of_size (Group.item_count (fol m)) = fzero /\
      fdiv fzero (float_of_size (Group.item_count (fol m))) = fnan /\
      group_start_state m = Some ((fnan, fnan), m) /\
      group_s_curve_init c running target m =
      Some (SCurve_Init c fnan target fnan
              (if running
               then SCurve_CalcA (Group.s (fol m)) (Group.now (fol m))
               else fzero)
              (Group.v_max (fol m)) (Group.a_max (fol m))
              (Group.j_max (fol m)),
            m)).
Proof.
  split; [|split].
  - intros m n l Hn. rewrite group_start_state_run by exact Hn.
    unfold arithmetic_mean, positions, velocities.
    rewrite !length_fmap, !length_take_le by exact Hn. reflexivity.
  - intros n Hn. unfold float_of_size, float_of_Z.
    destruct (Z.of_nat n) as [|p|p] eqn:E; try lia.
    cbn [binary_normalize].
    destruct (binary_round_sign false p 0 ltac:(fexp_lia))
      as (m & e & [-> | ->]); reflexivity.
  - intros c running target m E.
    assert (Group.item_count (fol m) <= length (Group.items (fol m)))%nat
      as Hn by lia.
    rewrite group_s_curve_init_run, group_start_state_run by exact Hn.
    rewrite E. unfold positions, velocities. rewrite take_0.
    repeat split.
Qed.

(** The theorem at a group with no cell. *)
Lemma group_mean_divides_by_count_witness :
  group_start_state Standin.empty_group
  = Some ((fnan, fnan), Standin.empty_group)
  /\ feqb (float_of_size 2) fzero = false.
Proof.
  destruct (@group_mean_divides_by_count Standin.curve_lib Standin.pd_lib)
    as (_ & Hpos & Hzero).
  split.
  - destruct (Hzero Standin.curve_zero false fzero Standin.empty_group
                eq_refl) as (_ & _ & E & _).
    exact E.
  - apply Hpos. lia.
Defined.

(** * Further properties of the code *)

(** ** Motors under commands and re-homing *)

Section MoreWorldFacts.
Context `{PDLib}.

Lemma send_other h v w h' : h <> h' -> motor (send h v w) h' = motor w h'.
Proof. intros Hne. unfold send; cbn. apply fn_lookup_alter_ne, Hne. Qed.

Lemma rehome_other h w h' : h <> h' -> motor (rehome h w) h' = motor w h'.
Proof. intros Hne. unfold rehome; cbn. apply fn_lookup_alter_ne, Hne. Qed.



Lemma rehome_velocity h w h' :
  velocity (motor (rehome h w) h') = velocity (motor w h').
Proof.
  unfold rehome; cbn. unfold alter, fn_alter.
  destruct (decide (h = h')); subst; reflexivity.
Qed.


Lemma send_all_app c (l1 l2 : list GroupItem.t) w :
  send_all c (l1 ++ l2) w = send_all c l2 (send_all c l1 w).
Proof. unfold send_all. apply fold_left_app. Qed.

Lemma send_all_other c (l : list GroupItem.t) : forall w h,
  h ∉ (GroupItem.ctrl <$> l) -> motor (send_all c l w) h = motor w h.
Proof.
  induction l as [|it l IH]; intros w h Hnot; [reflexivity|].
  unfold send_all in *; cbn [fold_left].
  rewrite fmap_cons, not_elem_of_cons in Hnot. destruct Hnot as [Hne Hnot].
  rewrite IH by exact Hnot. apply send_other. congruence.
Qed.

(** The command a motor holds after the loop is that of the last cell on
    it. *)
Lemma send_all_last c (l1 l2 : list GroupItem.t) it w :
  GroupItem.ctrl it ∉ (GroupItem.ctrl <$> l2) ->
  vel_ref (motor (send_all c (l1 ++ it :: l2) w) (GroupItem.ctrl it)) = c it.
Proof.
  intros Hnot. rewrite send_all_app.
  change (send_all c (it :: l2) ?w') with
    (send_all c l2 (send (GroupItem.ctrl it) (c it) w')).
  rewrite send_all_other by exact Hnot. apply send_vel_ref_same.
Qed.



Lemma rehome_all_velocity (l : list GroupItem.t) : forall w h,
  velocity (motor (rehome_all l w) h) = velocity (motor w h).
Proof.
  induction l as [|it l IH]; intros w h; [reflexivity|].
  unfold rehome_all in *; cbn [fold_left].
  rewrite IH, rehome_velocity, send_velocity. reflexivity.
Qed.

Lemma rehome_all_other (l : list GroupItem.t) : forall w h,
  h ∉ (GroupItem.ctrl <$> l) -> motor (rehome_all l w) h = motor w h.
Proof.
  induction l as [|it l IH]; intros w h Hnot; [reflexivity|].
  unfold rehome_all in *; cbn [fold_left].
  rewrite fmap_cons, not_elem_of_cons in Hnot. destruct Hnot as [Hne Hnot].
  rewrite IH by exact Hnot.
  rewrite rehome_other, send_other by congruence. reflexivity.
Qed.


End MoreWorldFacts.

(** ** The array after a clearing loop *)

Section Cleared.
Context `{SCurveLib} `{PDLib}.

Lemma cleared_length n (l : list GroupItem.t) : length (cleared n l) = length l.
Proof.
  unfold cleared. rewrite length_app, length_fmap, length_take, length_drop.
  lia.
Qed.



Lemma cleared_handles n (l : list GroupItem.t) :
  GroupItem.ctrl <$> cleared n l = GroupItem.ctrl <$> l.
Proof.
  unfold cleared. rewrite fmap_app, <- list_fmap_compose.
  rewrite <- (take_drop n l) at 3. rewrite fmap_app. reflexivity.
Qed.


End Cleared.



(** ** A follower that is not running *)

Section Stopped.
Context `{SCurveLib} `{PDLib}.

Lemma group_update_stopped (m : Mach Group.t) :
  Group.running (fol m) = false -> SCurveTraj_Group_Update m = Some (tt, m).
Proof.
  intros E. unfold SCurveTraj_Group_Update. run_cmd. rewrite E. reflexivity.
Qed.

Lemma axis_update_stopped (m : Mach Axis.t) :
  Axis.running (fol m) = false -> SCurveTraj_Axis_Update m = Some (tt, m).
Proof. intros E. rewrite axis_update_run. cbv zeta. rewrite E. reflexivity. Qed.

Lemma axis_ticks_stopped (k : nat) (m : Mach Axis.t) :
  Axis.running (fol m) = false ->
  ticks SCurveTraj_Axis_Update k m = Some (tt, m).
Proof.
  intros E. induction k as [|k IH]; [reflexivity|].
  cbn [ticks]. unfold cbind. rewrite axis_update_stopped by exact E. exact IH.
Qed.

Lemma group_ticks_stopped (k : nat) (m : Mach Group.t) :
  Group.running (fol m) = false ->
  ticks SCurveTraj_Group_Update k m = Some (tt, m).
Proof.
  intros E. induction k as [|k IH]; [reflexivity|].
  cbn [ticks]. unfold cbind. rewrite group_update_stopped by exact E. exact IH.
Qed.

End Stopped.

(** X2. A follower whose running flag is false is inert: any number of
    [Update] ticks leaves follower and world exactly as they are, so no
    command reaches a motor.  In particular [Stop] followed by any number
    of ticks is [Stop], and [ResetAll] followed by any number of ticks is
    [ResetAll]. *)
Theorem stopped_follower_is_inert `{SCurveLib} `{PDLib} :
  (forall (k : nat) (m : Mach Axis.t),
      Axis.running (fol m) = false ->
      ticks SCurveTraj_Axis_Update k m = Some (tt, m))
  /\
  (forall (k : nat) (m : Mach Group.t),
      Group.running (fol m) = false ->
      ticks SCurveTraj_Group_Update k m = Some (tt, m))
  /\
  (forall (k : nat) (m : Mach Axis.t),
      cbind SCurveTraj_Axis_Stop (fun _ => ticks SCurveTraj_Axis_Update k) m
      = SCurveTraj_Axis_Stop m /\
      cbind SCurveTraj_Axis_ResetAll
            (fun _ => ticks SCurveTraj_Axis_Update k) m
      = SCurveTraj_Axis_ResetAll m)
  /\
  (forall (k : nat) (m : Mach Group.t),
      (Group.item_count (fol m) <= length (Group.items (fol m)))%nat ->
      cbind SCurveTraj_Group_Stop (fun _ => ticks SCurveTraj_Group_Update k) m
      = SCurveTraj_Group_Stop m /\
      cbind SCurveTraj_Group_ResetAll
            (fun _ => ticks SCurveTraj_Group_Update k) m
      = SCurveTraj_Group_ResetAll m).
Proof.
  split; [|split; [|split]].
  - intros k m. apply axis_ticks_stopped.
  - intros k m. apply group_ticks_stopped.
  - intros k m. unfold cbind.
    rewrite axis_stop_run, axis_reset_all_run.
    split; apply axis_ticks_stopped; reflexivity.
  - intros k m Hn. unfold cbind.
    rewrite group_stop_run, group_reset_all_run by exact Hn.
    split; apply group_ticks_stopped; reflexivity.
Qed.

(** The theorem at the group on motors 3 and 4: stopped, then ticked five
    times, it has logged the two zero commands of the stop and nothing
    else. *)
Lemma stopped_follower_is_inert_witness :
  cbind SCurveTraj_Group_Stop (fun _ => ticks SCurveTraj_Group_Update 5)
    Standin.fast_group
  = SCurveTraj_Group_Stop Standin.fast_group
  /\
  match SCurveTraj_Group_Stop Standin.fast_group with
  | Some (_, m') => sent (env m') = [(3%nat, fzero); (4%nat, fzero)]
  | None => False
  end.
Proof.
  destruct (@stopped_follower_is_inert Standin.curve_lib Standin.pd_lib)
    as (_ & _ & _ & HG).
  destruct (HG 5%nat Standin.fast_group) as [E _]; [cbn; lia|].
  split; [exact E | reflexivity].
Defined.

(** X3. When the planning inside [SetTarget] succeeds, the follower is
    running on the planned curve with elapsed time zero, and nothing else
    has moved: no command is sent, no motor is touched, and the correctors,
    handles, limits and interval are as before.  The finished check right
    after is true exactly when the planned duration is not above zero. *)
Theorem set_target_success_effect `{SCurveLib} `{PDLib} :
  (forall (target : float) (m : Mach Axis.t) r c m1,
      axis_s_curve_init (Axis.s (fol m)) (Axis.running (fol m)) target
        {| fol := Axis.set_running false (fol m); env := env m |}
      = Some ((r, c), m1) ->
      is_success r = true ->
      exists m',
        SCurveTraj_Axis_SetTarget target m = Some (r, m') /\
        fol m' = Axis.set_running true
                   (Axis.set_now fzero (Axis.set_s c (fol m))) /\
        env m' = env m /\
        SCurveTraj_isFinished (fol m') = fgeb fzero (total_time c))
  /\
  (forall (target : float) (m : Mach Group.t) r c m1,
      (Group.item_count (fol m) <= length (Group.items (fol m)))%nat ->
      group_s_curve_init (Group.s (fol m)) (Group.running (fol m)) target
        {| fol := Group.set_running false (fol m); env := env m |}
      = Some ((r, c), m1) ->
      is_success r = true ->
      exists m',
        SCurveTraj_Group_SetTarget target m = Some (r, m') /\
        fol m' = Group.set_running true
                   (Group.set_now fzero (Group.set_s c (fol m))) /\
        env m' = env m /\
        SCurveTraj_isFinished (fol m') = fgeb fzero (total_time c)).
Proof.
  split.
  - intros target m r c m1 Hinit Hr.
    rewrite axis_s_curve_init_run in Hinit. cbn in Hinit.
    rewrite axis_set_target_run. cbv zeta.
    injection Hinit as Hinit _. rewrite Hinit. cbn [fst snd]. rewrite Hr.
    eexists. split; [reflexivity|]. cbn [fol env]. repeat split.
  - intros target m r c m1 Hn Hinit Hr.
    rewrite group_s_curve_init_run in Hinit by (cbn; exact Hn).
    cbn [fol env Group.set_running Group.s Group.now Group.v_max Group.a_max
         Group.j_max Group.items Group.item_count] in Hinit.
    rewrite group_set_target_run by exact Hn. cbv zeta.
    injection Hinit as Hinit _. rewrite Hinit. cbn [fst snd]. rewrite Hr.
    eexists. split; [reflexivity|]. cbn [fol env]. repeat split.
Qed.

(** The theorem at a stopped axis on motor 2, retargeted to 90 degrees:
    the planner succeeds, the follower runs and no command is logged. *)
Lemma set_target_success_effect_witness :
  exists m',
    SCurveTraj_Axis_SetTarget (float_of_Z 90)
      {| fol := Standin.axis_on 2 false (float_of_Z 180) (float_of_Z 5);
         env := Standin.world0 |}
    = Some (S_CURVE_SUCCESS, m') /\
    Axis.running (fol m') = true /\
    Axis.now (fol m') = fzero /\
    sent (env m') = [] /\
    Standin.axis_finished (fol m') = false.
Proof.
  destruct (@set_target_success_effect Standin.curve_lib Standin.pd_lib)
    as [HA _].
  edestruct (HA (float_of_Z 90)
               {| fol := Standin.axis_on 2 false (float_of_Z 180)
                           (float_of_Z 5);
                  env := Standin.world0 |} S_CURVE_SUCCESS)
    as (m' & E & Hf & He & _); [reflexivity | reflexivity |].
  exists m'. split; [exact E|]. rewrite Hf, He.
  repeat split.
Defined.



(** ** One operation at a time *)

Section Steps.
Context `{SCurveLib} `{PDLib}.

Lemma corrected_items_handles target w n (l : list GroupItem.t) :
  GroupItem.ctrl <$> corrected_items target w n l = GroupItem.ctrl <$> l.
Proof.
  unfold corrected_items. rewrite fmap_app, <- list_fmap_compose.
  rewrite <- (take_drop n l) at 3. rewrite fmap_app. reflexivity.
Qed.

Lemma initialised_length cfgs n (l : list GroupItem.t) :
  (n <= length l)%nat -> (n <= length cfgs)%nat ->
  length (initialised cfgs n l) = length l.
Proof.
  intros Hl Hc. unfold initialised.
  rewrite length_app, length_zip_with, !length_take, length_drop. lia.
Qed.

Lemma world_frame_refl hs w : world_frame hs w w.
Proof. split; reflexivity. Qed.

Lemma world_frame_trans hs w1 w2 w3 :
  world_frame hs w1 w2 -> world_frame hs w2 w3 -> world_frame hs w1 w3.
Proof.
  intros [A1 V1] [A2 V2]. split; intros h.
  - intros Hh. rewrite A2, A1 by exact Hh. reflexivity.
  - rewrite V2, V1. reflexivity.
Qed.

Lemma world_frame_send h v w : world_frame [h] w (send h v w).
Proof.
  split; intros h'.
  - intros Hh. apply send_other. intros ->. apply Hh. left.
  - apply send_velocity.
Qed.

Lemma world_frame_send_all c (l : list GroupItem.t) w :
  world_frame (GroupItem.ctrl <$> l) w (send_all c l w).
Proof.
  split; intros h.
  - apply send_all_other.
  - apply send_all_velocity.
Qed.

Lemma world_frame_rehome_all (l : list GroupItem.t) w :
  world_frame (GroupItem.ctrl <$> l) w (rehome_all l w).
Proof.
  split; intros h.
  - apply rehome_all_other.
  - apply rehome_all_velocity.
Qed.

(** What one operation on an axis does to the setup and to the world. *)
Lemma axis_op_step (op : AxisOp) (m : Mach Axis.t) :
  exists m',
    run_axis_op op m = Some (tt, m') /\
    (axis_is_init op = false ->
     axis_same_setup (fol m) (fol m') /\
     world_frame [Axis.ctrl (fol m)] (env m) (env m')) /\
    (axis_is_init op = true -> env m' = env m).
Proof.
  destruct op; cbn [run_axis_op axis_is_init].
  - rewrite axis_init_run. eexists. split; [reflexivity|].
    split; [discriminate|]. intros _. destruct (feqb _ _); reflexivity.
  - rewrite axis_update_run. cbv zeta. eexists. split; [reflexivity|].
    split; [|discriminate]. intros _.
    destruct (Axis.running (fol m)); cbn [fol env].
    + split; [repeat split | apply world_frame_send].
    + split; [repeat split | apply world_frame_refl].
  - rewrite axis_stop_run. eexists. split; [reflexivity|].
    split; [|discriminate]. intros _.
    split; [repeat split | apply world_frame_send].
  - rewrite axis_reset_all_run. eexists. split; [reflexivity|].
    split; [|discriminate]. intros _. split; [repeat split|].
    cbn [fol env]. split; intros h.
    + intros Hh. rewrite rehome_other, send_other; [reflexivity|..];
        intros E; apply Hh; rewrite E; left.
    + rewrite rehome_velocity, send_velocity. reflexivity.
  - unfold cbind. rewrite axis_set_target_run. cbv zeta.
    eexists. split; [reflexivity|]. split; [|discriminate]. intros _.
    destruct (is_success _); cbn [fol env].
    + split; [repeat split | apply world_frame_refl].
    + split; [repeat split | apply world_frame_send].
  - unfold cbind. rewrite axis_estimate_run. cbv zeta.
    eexists. split; [reflexivity|]. split; [|discriminate]. intros _.
    split; [repeat split | apply world_frame_refl].
Qed.

(** What one operation on a group does to the bounds, the setup and the
    world. *)
Lemma group_op_step (op : GroupOp) (m : Mach Group.t) :
  group_in_bounds (fol m) -> group_op_fits op ->
  exists m',
    run_group_op op m = Some (tt, m') /\
    group_in_bounds (fol m') /\
    (group_is_init op = false ->
     group_same_setup (fol m) (fol m') /\
     world_frame (group_handles (fol m)) (env m) (env m')) /\
    (group_is_init op = true -> env m' = env m).
Proof.
  unfold group_in_bounds, group_handles. intros Hb Hfit.
  destruct op; cbn [run_group_op group_is_init group_op_fits] in *.
  - destruct Hfit as [Hi Hc]. rewrite group_init_run by assumption.
    eexists. split; [reflexivity|].
    split; [|split; [discriminate|]].
    + destruct (feqb _ _); [exact Hb|]. cbn.
      rewrite initialised_length by assumption. exact Hi.
    + intros _. destruct (feqb _ _); reflexivity.
  - rewrite group_update_run by exact Hb. cbv zeta.
    eexists. split; [reflexivity|].
    destruct (Group.running (fol m)); cbn [fol env].
    + split; [|split; [|discriminate]].
      * cbn. rewrite corrected_items_length. exact Hb.
      * intros _. split; [|apply world_frame_send_all].
        repeat split. cbn. apply corrected_items_handles.
    + split; [exact Hb|]. split; [|discriminate]. intros _.
      split; [repeat split | apply world_frame_refl].
  - rewrite group_stop_run by exact Hb. eexists. split; [reflexivity|].
    cbn [fol env]. split; [|split; [|discriminate]].
    + cbn. rewrite cleared_length. exact Hb.
    + intros _. split; [|apply world_frame_send_all].
      repeat split. cbn. apply cleared_handles.
  - rewrite group_reset_all_run by exact Hb. eexists. split; [reflexivity|].
    cbn [fol env]. split; [|split; [|discriminate]].
    + cbn. rewrite cleared_length. exact Hb.
    + intros _. split; [|apply world_frame_rehome_all].
      repeat split. cbn. apply cleared_handles.
  - unfold cbind. rewrite group_set_target_run by exact Hb. cbv zeta.
    eexists. split; [reflexivity|].
    destruct (is_success _); cbn [fol env].
    + split; [exact Hb|]. split; [|discriminate]. intros _.
      split; [repeat split | apply world_frame_refl].
    + split; [|split; [|discriminate]].
      * cbn. rewrite cleared_length. exact Hb.
      * intros _. split; [|apply world_frame_send_all].
        repeat split. cbn. apply cleared_handles.
  - unfold cbind. rewrite group_estimate_run by exact Hb. cbv zeta.
    eexists. split; [reflexivity|]. split; [exact Hb|].
    split; [|discriminate]. intros _.
    split; [repeat split | apply world_frame_refl].
Qed.

End Steps.

(** ** Sequences of operations *)

Section Sequences.
Context `{SCurveLib} `{PDLib}.

Lemma axis_same_setup_trans (f1 f2 f3 : Axis.t) :
  axis_same_setup f1 f2 -> axis_same_setup f2 f3 -> axis_same_setup f1 f3.
Proof.
  unfold axis_same_setup. intros (A1 & A2 & A3 & A4 & A5) (B1 & B2 & B3 & B4 & B5).
  repeat split; congruence.
Qed.

Lemma group_same_setup_trans (f1 f2 f3 : Group.t) :
  group_same_setup f1 f2 -> group_same_setup f2 f3 -> group_same_setup f1 f3.
Proof.
  unfold group_same_setup.
  intros (A1 & A2 & A3 & A4 & A5 & A6) (B1 & B2 & B3 & B4 & B5 & B6).
  repeat split; congruence.
Qed.

Lemma group_same_setup_handles (f f' : Group.t) :
  group_same_setup f f' -> group_handles f' = group_handles f.
Proof.
  intros (En & Eh & _). unfold group_handles.
  rewrite !fmap_take, En, Eh. reflexivity.
Qed.

Lemma axis_ops_run (ops : list AxisOp) : forall (m : Mach Axis.t),
  Forall (fun op => axis_is_init op = false) ops ->
  exists m',
    run_axis_ops ops m = Some (tt, m') /\
    axis_same_setup (fol m) (fol m') /\
    world_frame [Axis.ctrl (fol m)] (env m) (env m').
Proof.
  induction ops as [|op ops IH]; intros m Hops.
  - exists m. split; [reflexivity|].
    split; [repeat split | apply world_frame_refl].
  - inversion Hops as [|? ? Hop Hrest]; subst.
    destruct (axis_op_step op m) as (m1 & E1 & Hstep & _).
    destruct (Hstep Hop) as [S1 W1].
    destruct (IH m1 Hrest) as (m' & E' & S' & W').
    exists m'. cbn [run_axis_ops]. unfold cbind. rewrite E1.
    split; [exact E'|]. split; [eapply axis_same_setup_trans; eassumption|].
    eapply world_frame_trans; [exact W1|].
    destruct S1 as (Ec & _). rewrite Ec in W'. exact W'.
Qed.

Lemma group_ops_run (ops : list GroupOp) : forall (m : Mach Group.t),
  group_in_bounds (fol m) ->
  Forall group_op_fits ops ->
  exists m',
    run_group_ops ops m = Some (tt, m') /\
    group_in_bounds (fol m') /\
    (Forall (fun op => group_is_init op = false) ops ->
     group_same_setup (fol m) (fol m') /\
     world_frame (group_handles (fol m)) (env m) (env m')).
Proof.
  induction ops as [|op ops IH]; intros m Hb Hfit.
  - exists m. split; [reflexivity|]. split; [exact Hb|]. intros _.
    split; [repeat split | apply world_frame_refl].
  - inversion Hfit as [|? ? Hop Hrest]; subst.
    destruct (group_op_step op m Hb Hop) as (m1 & E1 & Hb1 & Hstep & _).
    destruct (IH m1 Hb1 Hrest) as (m' & E' & Hb' & Hseq).
    exists m'. cbn [run_group_ops]. unfold cbind. rewrite E1.
    split; [exact E'|]. split; [exact Hb'|]. intros Hno.
    inversion Hno as [|? ? Hno1 Hnos]; subst.
    destruct (Hstep Hno1) as [S1 W1]. destruct (Hseq Hnos) as [S' W'].
    split; [eapply group_same_setup_trans; eassumption|].
    eapply world_frame_trans; [exact W1|].
    rewrite (group_same_setup_handles _ _ S1) in W'. exact W'.
Qed.

Lemma no_init_fits (ops : list GroupOp) :
  Forall (fun op => group_is_init op = false) ops ->
  Forall group_op_fits ops.
Proof.
  induction 1 as [|op ops Hop _ IH]; constructor; [|exact IH].
  destruct op; [discriminate | exact I..].
Qed.

End Sequences.

(** X5. A group never indexes outside its array.  From a follower whose
    count does not exceed its array, every sequence of operations in which
    each [Init] is given a configuration that fits its two arrays runs to
    its end, and the count still does not exceed the array. *)
Theorem group_ops_stay_in_bounds `{SCurveLib} `{PDLib}
  (ops : list GroupOp) (m : Mach Group.t) :
  group_in_bounds (fol m) ->
  Forall group_op_fits ops ->
  exists m',
    run_group_ops ops m = Some (tt, m') /\ group_in_bounds (fol m').
Proof.
  intros Hb Hfit.
  destruct (group_ops_run ops m Hb Hfit) as (m' & E & Hb' & _).
  exists m'. split; assumption.
Qed.

(** The theorem at a session with an [Init] in its middle, on the group
    on motors 1 and 2. *)
Lemma group_ops_stay_in_bounds_witness :
  exists m',
    run_group_ops Standin.group_session Standin.desync_group = Some (tt, m') /\
    group_in_bounds (fol m').
Proof.
  apply (@group_ops_stay_in_bounds Standin.curve_lib Standin.pd_lib).
  - unfold group_in_bounds. cbn. lia.
  - repeat constructor; cbn; lia.
Defined.

(** X6. The setup of a follower is constant between two [Init]s: over any
    sequence of operations without [Init], the motor handles, the update
    interval and the three limits are as at the start, and for a group so
    are the count and the handle of every cell. *)
Theorem setup_is_constant `{SCurveLib} `{PDLib} :
  (forall (ops : list AxisOp) (m : Mach Axis.t),
      Forall (fun op => axis_is_init op = false) ops ->
      exists m',
        run_axis_ops ops m = Some (tt, m') /\
        axis_same_setup (fol m) (fol m'))
  /\
  (forall (ops : list GroupOp) (m : Mach Group.t),
      group_in_bounds (fol m) ->
      Forall (fun op => group_is_init op = false) ops ->
      exists m',
        run_group_ops ops m = Some (tt, m') /\
        group_same_setup (fol m) (fol m')).
Proof.
  split.
  - intros ops m Hops.
    destruct (axis_ops_run ops m Hops) as (m' & E & S & _).
    exists m'. split; assumption.
  - intros ops m Hb Hops.
    pose proof (no_init_fits ops Hops) as Hfit.
    destruct (group_ops_run ops m Hb Hfit) as (m' & E & _ & Hseq).
    exists m'. split; [exact E|]. apply Hseq, Hops.
Qed.

(** The theorem at a session without [Init] on the group on motors 1 and
    2. *)
Lemma setup_is_constant_witness :
  exists m',
    run_group_ops Standin.group_run Standin.desync_group = Some (tt, m') /\
    group_same_setup (fol Standin.desync_group) (fol m').
Proof.
  destruct (@setup_is_constant Standin.curve_lib Standin.pd_lib) as [_ HG].
  apply (HG Standin.group_run Standin.desync_group).
  - unfold group_in_bounds. cbn. lia.
  - repeat constructor.
Defined.

(** X7. A follower touches only its own motors, and only their command and
    position: over any sequence of operations without [Init], every motor
    that is not the motor of the axis (not the motor of one of the cells
    the group loops over) is exactly as at the start, and no measured
    velocity of any motor has changed.  [Init] itself touches no motor. *)
Theorem other_motors_untouched `{SCurveLib} `{PDLib} :
  (forall (ops : list AxisOp) (m : Mach Axis.t),
      Forall (fun op => axis_is_init op = false) ops ->
      exists m',
        run_axis_ops ops m = Some (tt, m') /\
        (forall h, h <> Axis.ctrl (fol m) ->
                   motor (env m') h = motor (env m) h) /\
        (forall h, velocity (motor (env m') h) = velocity (motor (env m) h)))
  /\
  (forall (ops : list GroupOp) (m : Mach Group.t),
      group_in_bounds (fol m) ->
      Forall (fun op => group_is_init op = false) ops ->
      exists m',
        run_group_ops ops m = Some (tt, m') /\
        (forall h, h ∉ group_handles (fol m) ->
                   motor (env m') h = motor (env m) h) /\
        (forall h, velocity (motor (env m') h) = velocity (motor (env m) h)))
  /\
  (forall (config : SCurveTrajFollower_AxisConfig_t) (m : Mach Axis.t),
      exists m',
        SCurveTraj_Axis_Init config m = Some (tt, m') /\ env m' = env m)
  /\
  (forall (config : SCurveTrajFollower_GroupConfig_t) (m : Mach Group.t),
      group_op_fits (GrInit config) ->
      exists m',
        SCurveTraj_Group_Init config m = Some (tt, m') /\ env m' = env m).
Proof.
  split; [|split; [|split]].
  - intros ops m Hops.
    destruct (axis_ops_run ops m Hops) as (m' & E & _ & [Wm Wv]).
    exists m'. split; [exact E|]. split; [|exact Wv].
    intros h Hne. apply Wm. intros Hin.
    apply list_elem_of_singleton in Hin. exact (Hne Hin).
  - intros ops m Hb Hops.
    pose proof (no_init_fits ops Hops) as Hfit.
    destruct (group_ops_run ops m Hb Hfit) as (m' & E & _ & Hseq).
    destruct (Hseq Hops) as [_ [Wm Wv]].
    exists m'. split; [exact E|]. split; assumption.
  - intros config m.
    destruct (axis_op_step (AxInit config) m) as (m' & E & _ & Henv).
    exists m'. split; [exact E | apply Henv; reflexivity].
  - intros config m [Hi Hc].
    rewrite (group_init_run config m Hi Hc).
    destruct (feqb (GroupConfig.update_interval config) fzero);
      eexists; split; reflexivity.
Qed.

(** The theorem at a session on the axis on motor 2: motor 3 is as it
    was. *)
Lemma other_motors_untouched_witness :
  exists m',
    run_axis_ops Standin.axis_run Standin.done_axis = Some (tt, m') /\
    motor (env m') 3%nat = motor (env Standin.done_axis) 3%nat.
Proof.
  destruct (@other_motors_untouched Standin.curve_lib Standin.pd_lib)
    as [HA _].
  destruct (HA Standin.axis_run Standin.done_axis) as (m' & E & Hm & _).
  - repeat constructor.
  - exists m'. split; [exact E|]. apply Hm. cbn. lia.
Defined.

(** X8. After a tick of a running group a motor holds the command of the
    last cell that names it: the motor of cell [i] holds that cell's own
    command whenever no later cell of the loop shares its motor.  With
    pairwise distinct motors every motor holds the command of its cell. *)
Theorem group_update_last_cell_wins `{SCurveLib} `{PDLib}
  (m : Mach Group.t) (i : nat) (it : GroupItem.t) :
  let f := fol m in
  let n := Group.item_count f in
  let l := Group.items f in
  Group.running f = true ->
  (n <= length l)%nat ->
  (i < n)%nat ->
  l !! i = Some it ->
  (forall j it', (i < j)%nat -> (j < n)%nat -> l !! j = Some it' ->
                 GroupItem.ctrl it' <> GroupItem.ctrl it) ->
  let now := fadd (Group.now f) (Group.update_interval f) in
  let ff := SCurve_CalcV (Group.s f) now in
  let target := SCurve_CalcX (Group.s f) now in
  exists m',
    SCurveTraj_Group_Update m = Some (tt, m') /\
    vel_ref (motor (env m') (GroupItem.ctrl it)) =
    DPS2RPM (fadd ff (output
      (PD_Calculate (set_fdb (angle (motor (env m) (GroupItem.ctrl it)))
                             (set_ref target (GroupItem.pd it)))))).
Proof.
  intros f n l Hrun Hn Hi Hit Hlater now ff target.
  rewrite group_update_run by exact Hn. fold f. rewrite Hrun.
  eexists. split; [reflexivity|]. cbn [env]. fold n l now ff target.
  assert (take n l !! i = Some it) as Hti
    by (rewrite lookup_take_lt; assumption).
  rewrite <- (take_drop_middle _ _ _ Hti).
  rewrite send_all_last; [reflexivity|].
  intros Hin. apply list_elem_of_fmap in Hin as (it' & Ec & Hin').
  apply list_elem_of_lookup in Hin' as (k & Hk).
  rewrite lookup_drop in Hk. apply lookup_take_Some in Hk as [Hk Hlt].
  apply (Hlater (S i + k)%nat it'); [lia | exact Hlt | exact Hk | congruence].
Qed.

(** The theorem at the running group on motors 1 and 2, for its first
    cell. *)
Lemma group_update_last_cell_wins_witness :
  exists m',
    SCurveTraj_Group_Update Standin.desync_group = Some (tt, m') /\
    vel_ref (motor (env m') 1%nat) = S754_finite true 13981013 (-23).
Proof.
  apply (@group_update_last_cell_wins Standin.curve_lib Standin.pd_lib
           Standin.desync_group 0%nat (Standin.item_on 1)).
  - reflexivity.
  - cbn. lia.
  - cbn. lia.
  - reflexivity.
  - intros j it' Hj Hn Hit'. cbn in Hn.
    destruct j as [|[|j]]; [lia | | lia].
    cbn in Hit'. injection Hit' as <-. cbn. lia.
Defined.

(** ** Dividing by one, and the mean of one value *)

Lemma canonical_unique (m1 m2 : positive) (e1 e2 : Z) :
  canonical m1 e1 -> canonical m2 e2 ->
  val (Zpos m1) e1 = val (Zpos m2) e2 -> m1 = m2 /\ e1 = e2.
Proof.
  intros H1 H2 Ev.
  assert (val (Zpos m1) e1 <= val (Zpos m2) e2) as L12 by lia.
  assert (val (Zpos m2) e2 <= val (Zpos m1) e1) as L21 by lia.
  apply canonical_le in L12; [|assumption..].
  apply canonical_le in L21; [|assumption..].
  assert (e1 = e2) by lia. split; [|assumption].
  apply Pos.le_antisym; lia.
Qed.

(** Rounding a mantissa whose value is that of a canonical float gives that
    float. *)
Lemma binary_round_aux_of_canonical (s : bool) (q mx : positive) (eq ex : Z) :
  canonical mx ex -> ex <= emax - prec ->
  eq <= ex -> Zpos q = Zpos mx * 2 ^ (ex - eq) ->
  emin prec emax <= eq ->
  binary_round_aux prec emax s (Zpos q) eq loc_Exact = S754_finite s mx ex.
Proof.
  intros Hc Hmax Hle Eq Hmin.
  pose proof (digits2_pos_shift mx q (ex - eq) ltac:(lia) Eq) as Hd.
  assert (val (Zpos q) eq = val (Zpos mx) ex) as Ev.
  { rewrite Eq, <- val_shift by lia. f_equal. lia. }
  destruct (Z_le_gt_dec (Zpos (digits2_pos q)) prec) as [Hshort|Hlong].
  - assert (canonical q eq) as Hcq by fexp_lia.
    destruct (canonical_unique q mx eq ex Hcq Hc Ev) as [-> ->].
    rewrite binary_round_aux_canonical by exact Hc.
    apply Z.leb_le in Hmax. rewrite Hmax. reflexivity.
  - destruct (binary_round_aux_long s q eq Hmin ltac:(lia))
      as (m & e & m2 & -> & Hcm & Hm2 & _ & _ & Evm).
    set (n := Zpos (digits2_pos q) - prec) in *.
    assert (0 < n) as Hn by (unfold n; lia).
    assert (n = ex - eq) as En by (unfold n; fexp_lia).
    assert (Zpos q mod 2 ^ n = 0) as Hmod
      by (rewrite Eq, En; apply Z.mod_mul; apply Z.pow_nonzero; lia).
    destruct Hm2 as [Em2|[_ Hne]]; [|contradiction].
    assert (m2 = Zpos mx) as ->
      by (rewrite Em2, Eq, En; apply Z.div_mul, Z.pow_nonzero; lia).
    replace (eq + n) with ex in Evm by lia.
    destruct (canonical_unique m mx e ex Hcm Hc Evm) as [-> ->].
    apply Z.leb_le in Hmax. rewrite Hmax. reflexivity.
Qed.

(** Division by 1.0f is exact. *)
Lemma fdiv_one (x : float) :
  valid x = true -> fdiv x (float_of_Z 1) = x.
Proof.
  intros Hv. change (float_of_Z 1) with (S754_finite false 8388608 (-23)).
  destruct x as [sx|sx| |sx mx ex]; try (destruct sx; reflexivity);
    [reflexivity|].
  cbn [valid valid_binary] in Hv. unfold valid in Hv. cbn in Hv.
  apply bounded_canonical in Hv as [Hc Hmax].
  pose proof (canonical_emin _ _ Hc) as Hmin.
  unfold fdiv, SFdiv, SFdiv_core_binary. cbn [Zdigits2].
  set (d := Zpos (digits2_pos mx)).
  change (Zpos (digits2_pos 8388608)) with 24.
  set (e' := Z.min (fexp prec emax (d + ex - (24 + -23))) (ex - -23)).
  assert (e' <= ex /\ ex - 1 <= e' /\ emin prec emax <= e') as (Hle & Hge & He')
    by (unfold e', d in *; fexp_lia).
  set (sft := ex - -23 - e').
  assert (sft = 23 + (ex - e')) as Es by (unfold sft; lia).
  destruct sft as [|p|p] eqn:Esft; try lia.
  rewrite Z.shiftl_mul_pow2 by lia. rewrite Es.
  rewrite Z.pow_add_r by lia.
  replace (Zpos mx * (2 ^ 23 * 2 ^ (ex - e')))
    with (Zpos mx * 2 ^ (ex - e') * Zpos 8388608)
    by (change (2 ^ 23) with (Zpos 8388608); lia).
  assert (0 < 2 ^ (ex - e')) as Hp by (apply Z.pow_pos_nonneg; lia).
  pose proof (Z.div_mul (Zpos mx * 2 ^ (ex - e')) (Zpos 8388608)
                ltac:(lia)) as Hq.
  pose proof (Z.mod_mul (Zpos mx * 2 ^ (ex - e')) (Zpos 8388608)
                ltac:(lia)) as Hr.
  unfold Z.div, Z.modulo in Hq, Hr.
  destruct (Z.div_eucl (Zpos mx * 2 ^ (ex - e') * Zpos 8388608)
              (Zpos 8388608)) as [q r].
  subst q r. cbn [new_location new_location_even Z.even Z.eqb xorb].
  rewrite xorb_false_r.
  destruct (Zpos mx * 2 ^ (ex - e')) as [|q|q] eqn:Eq; try lia.
  apply binary_round_aux_of_canonical; auto.
Qed.

(** Adding to +0 gives the other number back, negative zero excepted. *)
Lemma fadd_zero_l (x : float) : x <> S754_zero true -> fadd fzero x = x.
Proof.
  intros Hx. destruct x as [[|]| | |]; try reflexivity. congruence.
Qed.

(** The mean of one value is that value. *)
Lemma arithmetic_mean_one (x : float) :
  valid x = true -> x <> S754_zero true -> arithmetic_mean [x] = x.
Proof.
  intros Hv Hx. unfold arithmetic_mean. cbn [fold_left length].
  rewrite fadd_zero_l by exact Hx. apply fdiv_one, Hv.
Qed.

(** X9. A group of one cell behaves as the axis it stands for: [Update],
    [Stop] and [ResetAll] on the group of one cell built from an axis send
    the same commands to the same motor and leave the group built from the
    axis that the same operation leaves. *)
Theorem one_cell_group_follows_axis `{SCurveLib} `{PDLib}
  (f : Axis.t) (w : World) :
  (exists f' w',
      SCurveTraj_Axis_Update {| fol := f; env := w |}
      = Some (tt, {| fol := f'; env := w' |}) /\
      SCurveTraj_Group_Update {| fol := group_of_axis f; env := w |}
      = Some (tt, {| fol := group_of_axis f'; env := w' |}))
  /\
  (exists f' w',
      SCurveTraj_Axis_Stop {| fol := f; env := w |}
      = Some (tt, {| fol := f'; env := w' |}) /\
      SCurveTraj_Group_Stop {| fol := group_of_axis f; env := w |}
      = Some (tt, {| fol := group_of_axis f'; env := w' |}))
  /\
  (exists f' w',
      SCurveTraj_Axis_ResetAll {| fol := f; env := w |}
      = Some (tt, {| fol := f'; env := w' |}) /\
      SCurveTraj_Group_ResetAll {| fol := group_of_axis f; env := w |}
      = Some (tt, {| fol := group_of_axis f'; env := w' |})).
Proof.
  split; [|split].
  - rewrite axis_update_run, group_update_run by (cbn; lia). cbv zeta.
    cbn [fol env group_of_axis Group.running]. destruct (Axis.running f).
    + eexists _, _. split; reflexivity.
    + eexists _, _. split; reflexivity.
  - rewrite axis_stop_run, group_stop_run by (cbn; lia).
    eexists _, _. split; reflexivity.
  - rewrite axis_reset_all_run, group_reset_all_run by (cbn; lia).
    eexists _, _. split; reflexivity.
Qed.

(** X10. A group of one cell plans as the axis it stands for.  When the
    measured position and velocity of the motor are binary32 values other
    than negative zero, their mean over the one cell is exact, and
    [SetTarget] and [EstimateDuration] on the group of one cell return what
    they return on the axis and leave the group built from the axis that
    [SetTarget] leaves. *)
Theorem one_cell_group_plans_as_axis `{SCurveLib} `{PDLib}
  (f : Axis.t) (w : World) (temps : SCurve_t) (target : float) :
  let p := angle (motor w (Axis.ctrl f)) in
  let v := velocity (motor w (Axis.ctrl f)) in
  valid p = true -> p <> S754_zero true ->
  valid v = true -> v <> S754_zero true ->
  (exists r f' w',
      SCurveTraj_Axis_SetTarget target {| fol := f; env := w |}
      = Some (r, {| fol := f'; env := w' |}) /\
      SCurveTraj_Group_SetTarget target {| fol := group_of_axis f; env := w |}
      = Some (r, {| fol := group_of_axis f'; env := w' |}))
  /\
  (exists d,
      SCurveTraj_Axis_EstimateDuration temps target {| fol := f; env := w |}
      = Some (d, {| fol := f; env := w |}) /\
      SCurveTraj_Group_EstimateDuration temps target
        {| fol := group_of_axis f; env := w |}
      = Some (d, {| fol := group_of_axis f; env := w |})).
Proof.
  intros p v Vp Np Vv Nv.
  assert (arithmetic_mean
            (positions w 1 [{| GroupItem.ctrl := Axis.ctrl f;
                               GroupItem.pd := Axis.pd f |}]) = p) as Ep
    by (apply arithmetic_mean_one; assumption).
  assert (arithmetic_mean
            (velocities w 1 [{| GroupItem.ctrl := Axis.ctrl f;
                                GroupItem.pd := Axis.pd f |}]) = v) as Ev
    by (apply arithmetic_mean_one; assumption).
  split.
  - rewrite axis_set_target_run, group_set_target_run by (cbn; lia).
    cbv zeta.
    cbn [fol env group_of_axis Group.running Group.s Group.now Group.v_max
         Group.a_max Group.j_max Group.items Group.item_count].
    rewrite Ep, Ev. fold p v.
    destruct (SCurve_Init _ _ _ _ _ _ _ _) as [r c]. cbn [fst snd].
    destruct (is_success r); eexists _, _, _; split; reflexivity.
  - rewrite axis_estimate_run, group_estimate_run by (cbn; lia).
    cbv zeta.
    cbn [fol env group_of_axis Group.running Group.s Group.now Group.v_max
         Group.a_max Group.j_max Group.items Group.item_count].
    rewrite Ep, Ev. fold p v.
    eexists. split; reflexivity.
Qed.

(** The theorem at the axis on motor 2, which stands at 200 degrees and
    turns at 20 degrees per second. *)
Lemma one_cell_group_plans_as_axis_witness :
  exists d,
    @SCurveTraj_Group_EstimateDuration Standin.curve_lib Standin.pd_lib
      Standin.curve_zero (float_of_Z 90)
      {| fol := group_of_axis (fol Standin.done_axis);
         env := Standin.world0 |}
    = Some (d, {| fol := group_of_axis (fol Standin.done_axis);
                  env := Standin.world0 |})
    /\
    @SCurveTraj_Axis_EstimateDuration Standin.curve_lib Standin.pd_lib
      Standin.curve_zero (float_of_Z 90) Standin.done_axis
    = Some (d, Standin.done_axis).
Proof.
  destruct (@one_cell_group_plans_as_axis Standin.curve_lib Standin.pd_lib
              (fol Standin.done_axis) Standin.world0 Standin.curve_zero
              (float_of_Z 90))
    as [_ (d & EA & EG)];
    [reflexivity | discriminate | reflexivity | discriminate |].
  exists d. split; [exact EG | exact EA].
Defined.

(** ** The unit conversion *)

Lemma binary_round_aux_opp (s : bool) (m e : Z) (l : location) :
  binary_round_aux prec emax (negb s) m e l =
  SFopp (binary_round_aux prec emax s m e l).
Proof.
  unfold binary_round_aux.
  destruct (shr_fexp prec emax m e l) as [mrs' e'].
  destruct (shr_fexp prec emax _ e' loc_Exact) as [mrs'' e''].
  destruct (shr_m mrs''); [reflexivity| |reflexivity].
  destruct (e'' <=? emax - prec); reflexivity.
Qed.

Lemma fdiv_opp (x y : float) : fdiv (SFopp x) y = SFopp (fdiv x y).
Proof.
  unfold fdiv.
  destruct x as [sx|sx| |sx mx ex], y as [sy|sy| |sy my ey];
    cbn [SFopp SFdiv]; try reflexivity;
    try (destruct sx, sy; reflexivity).
  destruct (SFdiv_core_binary prec emax (Zpos mx) ex (Zpos my) ey)
    as [[mz ez] lz].
  rewrite <- binary_round_aux_opp. destruct sx, sy; reflexivity.
Qed.

Lemma fmul_opp (x y : float) : fmul (SFopp x) y = SFopp (fmul x y).
Proof.
  unfold fmul.
  destruct x as [sx|sx| |sx mx ex], y as [sy|sy| |sy my ey];
    cbn [SFopp SFmul]; try reflexivity;
    try (destruct sx, sy; reflexivity).
  rewrite <- binary_round_aux_opp. destruct sx, sy; reflexivity.
Qed.

Lemma shr_nonneg mrs e n : 0 <= shr_m mrs -> 0 <= shr_m (fst (shr mrs e n)).
Proof.
  intros Hm. unfold shr. destruct n as [|p|p]; cbn [fst]; try exact Hm.
  rewrite iter_pos_nat.
  destruct (shr_iter (Pos.to_nat p) mrs Hm) as [-> _].
  apply Z.div_pos; [exact Hm|]. apply Z.pow_pos_nonneg; lia.
Qed.

Lemma shr_fexp_nonneg m e l :
  0 <= m -> 0 <= shr_m (fst (shr_fexp prec emax m e l)).
Proof.
  intros Hm. unfold shr_fexp. apply shr_nonneg.
  destruct l as [|[| |]]; exact Hm.
Qed.

(** Rounding a mantissa that is not negative never gives not-a-number. *)
Lemma binary_round_aux_number (s : bool) (m e : Z) (l : location) :
  0 <= m -> is_nan (binary_round_aux prec emax s m e l) = false.
Proof.
  intros Hm. unfold binary_round_aux.
  pose proof (shr_fexp_nonneg m e l Hm) as H1.
  destruct (shr_fexp prec emax m e l) as [mrs' e']. cbn [fst] in H1.
  assert (0 <= round_nearest_even (shr_m mrs') (loc_of_shr_record mrs'))
    as H2.
  { destruct (round_nearest_even_range (shr_m mrs')
                (loc_of_shr_record mrs')) as [-> | ->]; lia. }
  pose proof (shr_fexp_nonneg _ e' loc_Exact H2) as H3.
  destruct (shr_fexp prec emax _ e' loc_Exact) as [mrs'' e''].
  cbn [fst] in H3.
  destruct (shr_m mrs''); [reflexivity| |lia].
  destruct (e'' <=? emax - prec); reflexivity.
Qed.

Lemma fdiv_finite_number (sx sy : bool) (mx my : positive) (ex ey : Z) :
  is_nan (fdiv (S754_finite sx mx ex) (S754_finite sy my ey)) = false.
Proof.
  unfold fdiv, SFdiv, SFdiv_core_binary.
  set (m' := match _ - _ - _ with
             | 0 => Zpos mx | Zpos _ => Z.shiftl (Zpos mx) _ | Zneg _ => 0
             end).
  assert (0 <= m') as Hm'.
  { unfold m'. destruct (_ - _ - _) eqn:E; try lia.
    apply Z.shiftl_nonneg. lia. }
  pose proof (Z.div_pos m' (Zpos my) Hm' ltac:(lia)) as Hq.
  unfold Z.div in Hq. destruct (Z.div_eucl m' (Zpos my)) as [q r].
  apply binary_round_aux_number. exact Hq.
Qed.

Lemma fmul_finite_number (sx sy : bool) (mx my : positive) (ex ey : Z) :
  is_nan (fmul (S754_finite sx mx ex) (S754_finite sy my ey)) = false.
Proof. unfold fmul, SFmul. apply binary_round_aux_number. lia. Qed.

(** X11. The unit conversion is odd: the command for the opposite velocity
    is the opposite command, bit for bit, for every float. *)
Theorem DPS2RPM_opp (x : float) : DPS2RPM (SFopp x) = SFopp (DPS2RPM x).
Proof. unfold DPS2RPM. rewrite fdiv_opp, fmul_opp. reflexivity. Qed.

(** X12. The unit conversion never makes not-a-number out of a number: the
    converted command is not-a-number exactly when the velocity is.  It
    maps the zeros to themselves and the infinities to themselves. *)
Theorem DPS2RPM_number :
  (forall x : float, is_nan (DPS2RPM x) = is_nan x) /\
  (forall s : bool, DPS2RPM (S754_zero s) = S754_zero s) /\
  (forall s : bool, DPS2RPM (S754_infinity s) = S754_infinity s).
Proof.
  split; [|split]; [|intros []; reflexivity..].
  intros x. unfold DPS2RPM.
  change f360 with (S754_finite false 11796480 (-15)).
  change f60 with (S754_finite false 15728640 (-18)).
  destruct x as [sx|sx| |sx mx ex]; try (destruct sx; reflexivity);
    [reflexivity|].
  pose proof (fdiv_finite_number sx false mx 11796480 ex (-15)) as Hd.
  destruct (fdiv (S754_finite sx mx ex) (S754_finite false 11796480 (-15)))
    as [s|s| |s m e]; try discriminate.
  - destruct s; reflexivity.
  - destruct s; reflexivity.
  - apply fmul_finite_number.
Qed.

(** ** A running follower over ticks *)

Section Running.
Context `{SCurveLib} `{PDLib}.

Lemma axis_running_ticks (k : nat) : forall (m : Mach Axis.t),
  Axis.running (fol m) = true ->
  valid (Axis.now (fol m)) = true ->
  is_nan (Axis.now (fol m)) = false ->
  valid (Axis.update_interval (fol m)) = true ->
  fgeb (Axis.update_interval (fol m)) fzero = true ->
  Axis.update_interval (fol m) <> S754_infinity false ->
  exists m',
    ticks SCurveTraj_Axis_Update k m = Some (tt, m') /\
    Axis.running (fol m') = true /\
    Axis.s (fol m') = Axis.s (fol m) /\
    SFleb (Axis.now (fol m)) (Axis.now (fol m')) = true.
Proof.
  induction k as [|k IH]; intros m Hrun Vn Nn Vu Hu Hinf.
  - exists m. repeat split; auto. apply SFleb_refl, Nn.
  - cbn [ticks]. unfold cbind. rewrite axis_update_run. cbv zeta.
    rewrite Hrun.
    destruct (fadd_nonneg _ _ Vn Vu Nn Hu Hinf) as [Hle Vn'].
    assert (is_nan (fadd (Axis.now (fol m))
                         (Axis.update_interval (fol m))) = false) as Nn'
      by (apply SFleb_key in Hle; tauto).
    match goal with
    | |- exists m', ticks _ _ ?m1 = _ /\ _ =>
        destruct (IH m1) as (m' & E & Hrun' & Hs & Hle'); auto
    end.
    exists m'. split; [exact E|]. cbn [fol Axis.set_pd Axis.set_now
      Axis.now Axis.s] in *.
    repeat split; auto. eapply SFleb_trans; eassumption.
Qed.

Lemma group_running_ticks (k : nat) : forall (m : Mach Group.t),
  (Group.item_count (fol m) <= length (Group.items (fol m)))%nat ->
  Group.running (fol m) = true ->
  valid (Group.now (fol m)) = true ->
  is_nan (Group.now (fol m)) = false ->
  valid (Group.update_interval (fol m)) = true ->
  fgeb (Group.update_interval (fol m)) fzero = true ->
  Group.update_interval (fol m) <> S754_infinity false ->
  exists m',
    ticks SCurveTraj_Group_Update k m = Some (tt, m') /\
    Group.running (fol m') = true /\
    Group.s (fol m') = Group.s (fol m) /\
    SFleb (Group.now (fol m)) (Group.now (fol m')) = true.
Proof.
  induction k as [|k IH]; intros m Hn Hrun Vn Nn Vu Hu Hinf.
  - exists m. repeat split; auto. apply SFleb_refl, Nn.
  - cbn [ticks]. unfold cbind. rewrite group_update_run by exact Hn.
    cbv zeta. rewrite Hrun.
    destruct (fadd_nonneg _ _ Vn Vu Nn Hu Hinf) as [Hle Vn'].
    assert (is_nan (fadd (Group.now (fol m))
                         (Group.update_interval (fol m))) = false) as Nn'
      by (apply SFleb_key in Hle; tauto).
    match goal with
    | |- exists m', ticks _ _ ?m1 = _ /\ _ =>
        destruct (IH m1) as (m' & E & Hrun' & Hs & Hle'); auto;
          [cbn; rewrite corrected_items_length; exact Hn|]
    end.
    exists m'. split; [exact E|]. cbn [fol Group.set_items Group.set_now
      Group.now Group.s] in *.
    repeat split; auto. eapply SFleb_trans; eassumption.
Qed.

End Running.

(** X13. Time does not run backwards.  Over any number of ticks a running
    follower whose update interval is a non-negative finite number stays
    running on the same curve, and its elapsed time is never below what it
    was: only [Stop], [ResetAll] and [SetTarget] end a run or change the
    curve. *)
Theorem running_ticks_advance `{SCurveLib} `{PDLib} :
  (forall (k : nat) (m : Mach Axis.t),
      Axis.running (fol m) = true ->
      valid (Axis.now (fol m)) = true ->
      is_nan (Axis.now (fol m)) = false ->
      valid (Axis.update_interval (fol m)) = true ->
      fgeb (Axis.update_interval (fol m)) fzero = true ->
      Axis.update_interval (fol m) <> S754_infinity false ->
      exists m',
        ticks SCurveTraj_Axis_Update k m = Some (tt, m') /\
        Axis.running (fol m') = true /\
        Axis.s (fol m') = Axis.s (fol m) /\
        fgeb (Axis.now (fol m')) (Axis.now (fol m)) = true)
  /\
  (forall (k : nat) (m : Mach Group.t),
      (Group.item_count (fol m) <= length (Group.items (fol m)))%nat ->
      Group.running (fol m) = true ->
      valid (Group.now (fol m)) = true ->
      is_nan (Group.now (fol m)) = false ->
      valid (Group.update_interval (fol m)) = true ->
      fgeb (Group.update_interval (fol m)) fzero = true ->
      Group.update_interval (fol m) <> S754_infinity false ->
      exists m',
        ticks SCurveTraj_Group_Update k m = Some (tt, m') /\
        Group.running (fol m') = true /\
        Group.s (fol m') = Group.s (fol m) /\
        fgeb (Group.now (fol m')) (Group.now (fol m)) = true).
Proof.
  split.
  - intros k m. apply axis_running_ticks.
  - intros k m. apply group_running_ticks.
Qed.

(** The theorem at the running axis on motor 2, over four ticks: the
    elapsed time has gone from zero to four ticks. *)
Lemma running_ticks_advance_witness :
  exists m',
    ticks SCurveTraj_Axis_Update 4 Standin.done_axis = Some (tt, m') /\
    Axis.running (fol m') = true /\
    fgeb (Axis.now (fol m')) fzero = true.
Proof.
  destruct (@running_ticks_advance Standin.curve_lib Standin.pd_lib)
    as [HA _].
  destruct (HA 4%nat Standin.done_axis) as (m' & E & Hrun & _ & Hle);
    [reflexivity | reflexivity | reflexivity | reflexivity | reflexivity
    | discriminate |].
  exists m'. split; [exact E|]. split; [exact Hrun | exact Hle].
Defined.

(** ** The count as a float *)

(** X14. The cast of the count is exact below 2^24: for 0 < n < 16777216
    the divisor [(float) n] of the mean is the positive finite float whose
    value is n, so the only rounding in the mean is that of the sums and
    of the quotient. *)
Theorem float_of_size_exact (n : nat) :
  (0 < n)%nat -> Z.of_nat n < 2 ^ prec ->
  exists (m : positive) (e : Z),
    float_of_size n = S754_finite false m e /\
    canonical m e /\
    e <= 0 /\
    Zpos m = Z.of_nat n * 2 ^ (- e).
Proof.
  intros Hpos Hlt. unfold float_of_size, float_of_Z.
  destruct (Z.of_nat n) as [|p|p] eqn:E; try lia.
  cbn [binary_normalize]. unfold binary_round.
  set (d := Zpos (digits2_pos p)).
  pose proof (digits2_pos_bounds p) as [Blo _]. fold d in Blo.
  assert (d <= prec) as Hd.
  { destruct (Z_le_gt_dec d prec); [assumption|].
    assert (2 ^ prec <= 2 ^ (d - 1)) by (apply Z.pow_le_mono_r; lia). lia. }
  assert (0 < d) as Hd0 by (unfold d; lia).
  set (e1 := fexp prec emax (d + 0)).
  assert (e1 = d - prec) as Ee1 by (unfold e1; fexp_lia).
  destruct (shl_align_spec p 0 e1 ltac:(lia)) as [Ee Em].
  destruct (shl_align p 0 e1) as [mz ez]. cbn [fst snd] in *. subst ez.
  assert (canonical mz e1) as Hc.
  { unfold canonical.
    rewrite (digits2_pos_shift p mz (0 - e1)) by (auto; lia).
    fold d. replace (d + (0 - e1) + e1) with (d + 0) by lia. reflexivity. }
  rewrite binary_round_aux_canonical by exact Hc.
  assert ((e1 <=? emax - prec) = true) as -> by (apply Z.leb_le; fexp_lia).
  exists mz, e1. split; [reflexivity|]. split; [exact Hc|]. split; [lia|].
  rewrite Em. f_equal; lia.
Qed.

(** The theorem at three cells: the divisor is 3 * 2^22 at exponent -22. *)
Lemma float_of_size_exact_witness :
  exists (m : positive) (e : Z),
    float_of_size 3 = S754_finite false m e /\
    canonical m e /\ e <= 0 /\ Zpos m = 3 * 2 ^ (- e).
Proof. apply (float_of_size_exact 3); [lia | reflexivity]. Defined.

(** ** A count beyond the array *)

Section Overrun.
Context `{SCurveLib} `{PDLib}.

(** A loop that runs further than the array reaches the cell past its end
    and fails there. *)
Lemma for_from_overrun
  (body : nat -> unit -> Cmd Group.t unit)
  (step : nat -> World -> GroupItem.t -> option (GroupItem.t * World))
  (Hbody : forall i m it,
      Group.items (fol m) !! i = Some it ->
      body i tt m =
      match step i (env m) it with
      | Some (it', w') =>
          Some (tt, {| fol := Group.set_items
                                (<[i := it']> (Group.items (fol m))) (fol m);
                       env := w' |})
      | None => None
      end)
  (Hfail : forall i m,
      Group.items (fol m) !! i = None -> body i tt m = None) :
  forall (todo done : list GroupItem.t) (k : nat) (m : Mach Group.t),
    Group.items (fol m) = done ++ todo ->
    (length todo < k)%nat ->
    for_from (length done) k body tt m = None.
Proof.
  induction todo as [|it todo IH]; intros done k m Hitems Hk.
  - destruct k as [|k]; [cbn in Hk; lia|].
    cbn [for_from]. unfold cbind.
    rewrite Hfail; [reflexivity|].
    rewrite Hitems, app_nil_r. apply lookup_ge_None. lia.
  - destruct k as [|k]; [cbn in Hk; lia|].
    cbn [for_from]. unfold cbind.
    rewrite (Hbody _ _ it)
      by (rewrite Hitems; apply list_lookup_middle; reflexivity).
    destruct (step (length done) (env m) it) as [[it' w']|]; [|reflexivity].
    specialize (IH (done ++ [it']) k
                   {| fol := Group.set_items
                               (<[length done := it']> (Group.items (fol m)))
                               (fol m);
                      env := w' |}).
    rewrite length_app in IH. cbn [length] in IH.
    replace (length done + 1)%nat with (S (length done)) in IH by lia.
    apply IH.
    + cbn [fol]. destruct (fol m); cbn in *. subst.
      rewrite (insert_app_r_alt done (it :: todo) (length done)) by lia.
      rewrite Nat.sub_diag. cbn [insert list_insert].
      rewrite <- app_assoc. reflexivity.
    + cbn in Hk. lia.
Qed.

Lemma item_at_none i (m : Mach Group.t) :
  Group.items (fol m) !! i = None -> item_at i m = None.
Proof. intros E. unfold item_at. rewrite E. reflexivity. Qed.

Lemma upd_item_none i g (m : Mach Group.t) :
  Group.items (fol m) !! i = None -> upd_item i g m = None.
Proof. intros E. unfold upd_item. rewrite E. reflexivity. Qed.

Lemma group_stop_item_none i (m : Mach Group.t) :
  Group.items (fol m) !! i = None -> group_stop_item i tt m = None.
Proof.
  intros E. unfold group_stop_item, cbind at 1.
  rewrite (item_at_none _ _ E). reflexivity.
Qed.

Lemma group_reset_item_none i (m : Mach Group.t) :
  Group.items (fol m) !! i = None -> group_reset_item i tt m = None.
Proof.
  intros E. unfold group_reset_item, cbind at 1.
  rewrite (upd_item_none _ _ _ E). reflexivity.
Qed.

Lemma group_update_item_none ff target i (m : Mach Group.t) :
  Group.items (fol m) !! i = None ->
  group_update_item ff target i tt m = None.
Proof.
  intros E. unfold group_update_item, cbind at 1.
  rewrite (upd_item_none _ _ _ E). reflexivity.
Qed.

Lemma for_from_sum_overrun (k : nat) : forall i acc (m : Mach Group.t),
  (i <= length (Group.items (fol m)))%nat ->
  (length (Group.items (fol m)) < i + k)%nat ->
  for_from i k group_sum_item acc m = None.
Proof.
  induction k as [|k IH]; intros i acc m Hi Hlen; [lia|].
  cbn [for_from]. unfold cbind at 1, group_sum_item, cbind at 1.
  destruct (Group.items (fol m) !! i) as [it|] eqn:E.
  - rewrite (item_at_run _ _ _ E).
    cbv [cbind MotorCtrl_GetAngle MotorCtrl_GetVelocity read_env cret].
    apply lookup_lt_Some in E. apply IH; lia.
  - rewrite (item_at_none _ _ E). reflexivity.
Qed.

Lemma group_s_curve_init_overrun c running target (m : Mach Group.t) :
  (length (Group.items (fol m)) < Group.item_count (fol m))%nat ->
  group_s_curve_init c running target m = None.
Proof.
  intros Hlen. unfold group_s_curve_init, group_start_state, for_loop.
  unfold cbind at 1. unfold cbind at 1. unfold get_fol. unfold cbind at 1.
  rewrite for_from_sum_overrun by (cbn; lia). reflexivity.
Qed.

End Overrun.

(** X15. The bound on the count is needed.  With [item_count] beyond the
    length of the array every looping operation of the group reaches the
    cell past the end of the array: [Stop], [ResetAll], [SetTarget],
    [EstimateDuration] and [Update] of a running group all fail there.
    Only [Update] of a stopped group, which returns before its loop, does
    not. *)
Theorem group_count_beyond_array `{SCurveLib} `{PDLib}
  (m : Mach Group.t) (temps : SCurve_t) (target : float) :
  (length (Group.items (fol m)) < Group.item_count (fol m))%nat ->
  SCurveTraj_Group_Stop m = None /\
  SCurveTraj_Group_ResetAll m = None /\
  SCurveTraj_Group_SetTarget target m = None /\
  SCurveTraj_Group_EstimateDuration temps target m = None /\
  (Group.running (fol m) = true -> SCurveTraj_Group_Update m = None) /\
  (Group.running (fol m) = false ->
   SCurveTraj_Group_Update m = Some (tt, m)).
Proof.
  intros Hlen. repeat split.
  - unfold SCurveTraj_Group_Stop, for_loop. run_cmd.
    apply (for_from_overrun group_stop_item stop_step group_stop_item_step
             group_stop_item_none (Group.items (fol m)) []);
      [reflexivity | cbn; exact Hlen].
  - unfold SCurveTraj_Group_ResetAll, for_loop. run_cmd.
    apply (for_from_overrun group_reset_item reset_step
             group_reset_item_step
             group_reset_item_none (Group.items (fol m)) []);
      [reflexivity | cbn; exact Hlen].
  - unfold SCurveTraj_Group_SetTarget. run_cmd.
    rewrite group_s_curve_init_overrun by (cbn; exact Hlen). reflexivity.
  - unfold SCurveTraj_Group_EstimateDuration. run_cmd.
    rewrite group_s_curve_init_overrun by exact Hlen. reflexivity.
  - intros Hrun. unfold SCurveTraj_Group_Update, for_loop. run_cmd.
    rewrite Hrun. cbn [negb].
    apply (for_from_overrun (group_update_item _ _) (update_step _ _)
             (group_update_item_step _ _)
             (group_update_item_none _ _) (Group.items (fol m)) []);
      [reflexivity | cbn; exact Hlen].
  - apply group_update_stopped.
Qed.

(** The bound at a running group of count 2 over one cell. *)
Lemma group_count_beyond_array_witness :
  @SCurveTraj_Group_Stop Standin.curve_lib Standin.pd_lib Standin.short_group = None /\
  @SCurveTraj_Group_ResetAll Standin.curve_lib Standin.pd_lib Standin.short_group = None /\
  @SCurveTraj_Group_SetTarget Standin.curve_lib Standin.pd_lib (float_of_Z 90) Standin.short_group = None /\
  @SCurveTraj_Group_EstimateDuration Standin.curve_lib Standin.pd_lib
    Standin.curve_zero (float_of_Z 90) Standin.short_group = None /\
  @SCurveTraj_Group_Update Standin.curve_lib Standin.pd_lib Standin.short_group = None.
Proof.
  destruct (@group_count_beyond_array Standin.curve_lib Standin.pd_lib
              Standin.short_group Standin.curve_zero (float_of_Z 90))
    as (A & B & C & D & E & _); [cbn; lia|].
  split; [exact A|]. split; [exact B|]. split; [exact C|].
  split; [exact D|]. apply E. reflexivity.
Defined.

(** ** When [Init] of a group is defined *)

Section InitBounds.
Context `{SCurveLib} `{PDLib}.

Lemma group_init_item_none config i (m : Mach Group.t) :
  Group.items (fol m) !! i = None -> group_init_item config i tt m = None.
Proof.
  intros E. unfold group_init_item, item_config_at.
  destruct (GroupConfig.item_configs config !! i) as [c|]; [|reflexivity].
  unfold cbind at 1. cbv [cret]. unfold cbind at 1.
  rewrite (upd_item_none _ _ _ E). reflexivity.
Qed.

Lemma sweep_init_short (cfgs : list GroupItemConfig.t)
  (l : list GroupItem.t) : forall i w,
    (i <= length cfgs)%nat ->
    (length cfgs < i + length l)%nat ->
    sweep (init_step cfgs) i l w = None.
Proof.
  induction l as [|it l IH]; intros i w Hi Hlen; [cbn in Hlen; lia|].
  cbn [sweep length] in *. unfold init_step at 1.
  destruct (cfgs !! i) as [c|] eqn:E; [|reflexivity].
  apply lookup_lt_Some in E. rewrite IH by lia. reflexivity.
Qed.

Lemma group_init_overrun (config : SCurveTrajFollower_GroupConfig_t)
  (m : Mach Group.t) :
  let n := GroupConfig.item_count config in
  feqb (GroupConfig.update_interval config) fzero = false ->
  (length (GroupConfig.items config) < n)%nat \/
  (length (GroupConfig.item_configs config) < n)%nat ->
  SCurveTraj_Group_Init config m = None.
Proof.
  intros n E Hshort. unfold SCurveTraj_Group_Init. rewrite E.
  destruct (le_lt_dec n (length (GroupConfig.items config))) as [Hn|Hn].
  - destruct Hshort as [Hs|Hs]; [lia|].
    run_cmd.
    rewrite (for_loop_sweep _ (init_step _) (group_init_item_step config))
      by (cbn; exact Hn).
    cbn [fol env Group.items Group.set_items Group.set_item_count
         Group.item_count].
    rewrite sweep_init_short;
      [reflexivity | lia | rewrite length_take_le by exact Hn; cbn; exact Hs].
  - run_cmd. unfold for_loop.
    rewrite (for_from_overrun (group_init_item config) (init_step _)
               (group_init_item_step config) (group_init_item_none config)
               (GroupConfig.items config) []);
      [reflexivity | reflexivity | cbn; exact Hn].
Qed.

Lemma zip_init_handles (cs : list GroupItemConfig.t) :
  forall ls : list GroupItem.t,
    (length cs <= length ls)%nat ->
    GroupItem.ctrl <$> zip_with init_item cs ls = GroupItemConfig.ctrl <$> cs.
Proof.
  induction cs as [|c cs IH]; intros [|it ls] Hlen; cbn in *;
    [reflexivity | reflexivity | lia |].
  rewrite IH by lia. reflexivity.
Qed.

End InitBounds.

(** X16. [Init] of a group with a non-zero interval is defined exactly when
    the configured count fits both arrays of the configuration, the cell
    storage and the per-cell configurations.  When it is, the world is as
    before, the count fits the array of the follower, the cells the follower
    loops over carry the configured handles in the configured order, and
    the cells of the storage beyond the count are as the caller left
    them. *)
Theorem group_init_defined `{SCurveLib} `{PDLib}
  (config : SCurveTrajFollower_GroupConfig_t) (m : Mach Group.t) :
  let n := GroupConfig.item_count config in
  feqb (GroupConfig.update_interval config) fzero = false ->
  (SCurveTraj_Group_Init config m = None <->
   (length (GroupConfig.items config) < n)%nat \/
   (length (GroupConfig.item_configs config) < n)%nat)
  /\
  (forall m', SCurveTraj_Group_Init config m = Some (tt, m') ->
     env m' = env m /\
     group_in_bounds (fol m') /\
     group_handles (fol m') =
       GroupItemConfig.ctrl <$> take n (GroupConfig.item_configs config) /\
     drop n (Group.items (fol m')) = drop n (GroupConfig.items config)).
Proof.
  intros n E.
  destruct (le_lt_dec n (length (GroupConfig.items config))) as [Hn|Hn];
    [destruct (le_lt_dec n (length (GroupConfig.item_configs config)))
       as [Hc|Hc]|].
  - pose proof (group_init_run config m Hn Hc) as R. cbv zeta in R.
    rewrite E in R. fold n in R. split.
    + split; [intros N; rewrite N in R; discriminate | lia].
    + intros m' Hm. rewrite R in Hm. injection Hm as <-.
      assert (length (zip_with init_item
                        (take n (GroupConfig.item_configs config))
                        (take n (GroupConfig.items config))) = n) as Hz.
      { rewrite length_zip_with, !length_take_le by assumption. lia. }
      unfold group_in_bounds, group_handles, initialised.
      cbn [fol env Group.items Group.item_count].
      repeat split.
      * rewrite length_app, Hz, length_drop. lia.
      * rewrite take_app_le, take_ge by lia.
        apply zip_init_handles. rewrite !length_take_le by assumption. lia.
      * rewrite drop_app_ge, Hz, Nat.sub_diag by lia. apply drop_0.
  - pose proof (group_init_overrun config m E (or_intror Hc)) as R.
    split; [split; [right; exact Hc | intros _; exact R]|].
    intros m' Hm. rewrite R in Hm. discriminate.
  - pose proof (group_init_overrun config m E (or_introl Hn)) as R.
    split; [split; [left; exact Hn | intros _; exact R]|].
    intros m' Hm. rewrite R in Hm. discriminate.
Qed.

(** A configuration of two cells over arrays of two is accepted and puts
    the follower on motors 3 and 4; one that names three cells is not. *)
Lemma group_init_defined_witness :
  match @SCurveTraj_Group_Init Standin.curve_lib Standin.pd_lib
          (Standin.group_config Standin.tick)
          Standin.fast_group with
  | Some (_, m') => @group_handles Standin.curve_lib Standin.pd_lib (fol m') = [3; 4]%nat
  | None => False
  end /\
  @SCurveTraj_Group_Init Standin.curve_lib Standin.pd_lib
    Standin.long_config Standin.fast_group = None.
Proof.
  destruct (@group_init_defined Standin.curve_lib Standin.pd_lib
              (Standin.group_config Standin.tick) Standin.fast_group)
    as [D1 S1]; [reflexivity|].
  destruct (@group_init_defined Standin.curve_lib Standin.pd_lib
              Standin.long_config Standin.fast_group)
    as [D2 _]; [reflexivity|].
  split.
  - destruct (@SCurveTraj_Group_Init Standin.curve_lib Standin.pd_lib
          (Standin.group_config Standin.tick)
                Standin.fast_group) as [[[] m']|] eqn:R.
    + destruct (S1 m' eq_refl) as (_ & _ & Hh & _). exact Hh.
    + destruct (proj1 D1 eq_refl) as [L|L]; cbn in L; lia.
  - apply D2. cbn. lia.
Defined.
